(** * KThreadPool: a shallow embedding of kthreadpool.hpp

    The pool is modelled as a record holding the shared fields of the C++
    class ([Threads], [ActiveJobCount], [bDestroyingPool], [PendingJobs])
    together with the control state of every thread that touches them:
    the workers, each running the [waitForJob] loop, and the thread that
    owns the pool and calls its public members.

    Each thread moves by atomic steps: one locked block, or one read or
    write of an atomic. A run of the program is a schedule, the list of
    the threads in the order in which they move; the shared fields are
    sequentially consistent, as the mutex and the default memory order of
    [std::atomic] make them. What a job does is visible to the pool only
    as a sequence of calls of the user callback and of submissions of
    further jobs.

    [Iterate] and [IterateWeighted] are modelled by the pool they
    construct and by what the calling thread does to it before the call
    returns. Weights are [double]s in the source and IEEE 754 binary64
    numbers here ([PrimFloat], rounding to nearest even): sums, the
    quotient and the comparison of the scan round as the compiled code
    does on a target whose [double] arithmetic is binary64. Indices and
    element counts are [nat] where they index a list; the [int] /
    [size_t] arithmetic of the pool size and of the job counter is
    written out on [Z]. *)

From Stdlib Require Import ZArith Floats Lia Bool.
From stdpp Require Import base option list.

Set Default Goal Selector "!".

(** ** Machine integers *)

Module Int.

Local Open Scope Z_scope.

Definition INT_MAX : Z := 2 ^ 31 - 1.
Definition SIZE_MAX : Z := 2 ^ 64 - 1.

(** Conversion to [int], as in [(int)elementCount]: modular. *)
Definition to_int (z : Z) : Z := (z + 2 ^ 31) mod 2 ^ 32 - 2 ^ 31.

(** Conversion to [size_t], as the usual arithmetic conversions do when
    an [int] is compared with a [size_t]; also the wrap-around of
    [size_t] arithmetic. *)
Definition to_size_t (z : Z) : Z := z mod 2 ^ 64.

Definition is_int (z : Z) : Prop := - 2 ^ 31 <= z <= INT_MAX.
Definition is_size_t (z : Z) : Prop := 0 <= z <= SIZE_MAX.

End Int.

(** ** The host: what the pool reads from its environment *)

(** [GetCpuCoreCount] is [(int)std::thread::hardware_concurrency()];
    [DefaultThreadCount] is the static member of the class. *)
Record Host := {
  GetCpuCoreCount : Z;
  DefaultThreadCount : Z
}.

(** ** Thread count of a pool

    [KThreadPool::KThreadPool(int count, double restTime)]: the value of
    [count] after the two [if]s, which is the number of threads spawned. *)
Definition thread_count (h : Host) (count : Z) : Z :=
  let count :=
    if (count =? 0)%Z
    then (if (DefaultThreadCount h =? 0)%Z
          then GetCpuCoreCount h else DefaultThreadCount h)
    else count in
  if (count <=? 0)%Z then 1%Z else count.

(** The two lines shared by [Iterate] and [IterateWeighted]:
[[
    if (poolSize == 0) poolSize = GetCpuCoreCount();
    if (poolSize > elementCount) poolSize = (int)elementCount;
]]
    [poolSize] is an [int], [elementCount] a [size_t]: the comparison is
    made in [size_t]. *)
Definition clamp_poolSize (h : Host) (poolSize : Z) (elementCount : Z) : Z :=
  let poolSize := if (poolSize =? 0)%Z then GetCpuCoreCount h else poolSize in
  if (Int.to_size_t poolSize >? elementCount)%Z
  then Int.to_int elementCount
  else poolSize.

(** The number of threads of the ephemeral pool, [pool.Threads.size()]. *)
Definition effective_workers (h : Host) (poolSize : Z) (elementCount : Z) : Z :=
  thread_count h (clamp_poolSize h poolSize elementCount).

(** ** Jobs

    What a job does when executed, as far as the pool can observe it: it
    calls the element dispatcher at some indices ([Invoke]), and it may
    enqueue further jobs into the pool it runs in ([Submit], the callable
    calling [AddFunctionToPool] on a pool pointer among its arguments). *)
#[warnings="-register-all"]
Inductive action : Type :=
| Invoke (i : nat)
| Submit (deleteOnFinish : bool) (body : list action).

(** [ThreadJob<Functor, TArgs...>] seen through [ThreadJobBase*]. *)
Record ThreadJobBase := {
  bDeleteOnFinish : bool;
  Function : list action
}.

(** [ThreadJob(Functor func, TArgs... args)]: the flag keeps its default
    member initialiser, [true]. *)
Definition ThreadJob (func : list action) : ThreadJobBase :=
  {| bDeleteOnFinish := true; Function := func |}.

(** [ThreadJob(bool deleteOnFinish, Functor func, TArgs... args)]. *)
Definition ThreadJob_flag (deleteOnFinish : bool) (func : list action) : ThreadJobBase :=
  {| bDeleteOnFinish := deleteOnFinish; Function := func |}.

(** ** The pool and its threads *)

(** What can be observed of a run. [Executed j]: a worker entered
    [j->Execute()]. [Called i]: the user callback was called at index [i].
    [Deleted j]: [j] ran [delete this]. *)
Inductive event : Type :=
| Executed (j : ThreadJobBase)
| Called (i : nat)
| Deleted (j : ThreadJobBase).

(** Control state of a worker thread running the [waitForJob] lambda. *)
Inductive worker : Type :=
| Polling                                         (* top of the loop, about to call TakeNewJob *)
| Executing (j : ThreadJobBase) (rest : list action) (* inside job->Execute() *)
| Finishing                                       (* Execute returned, ActiveJobCount-- to come *)
| CheckDestroy                                    (* tookNew is false, about to read IsPendingDestroy() *)
| Terminated.                                     (* the lambda returned *)

(** Operations the thread owning the pool performs on it. *)
Inductive op : Type :=
| AddJobToPool (j : ThreadJobBase)       (* one locked push_back *)
| PushBulk (js : list ThreadJobBase)     (* Iterate: one lock, push_back of every job *)
| WaitForFinish
| Destroy.                               (* ~KThreadPool *)

(** Control state of the thread owning the pool. *)
Inductive owner_state : Type :=
| Running (prog : list op)
| WaitActive (prog : list op)  (* in WaitForFinish: GetPendingJobCount() was 0, ActiveJobCount is read next *)
| Joining (k : nat)            (* in the destructor: flag set, Threads[0..k) joined *)
| Destroyed.

Record KThreadPool := {
  Threads : list worker;
  ActiveJobCount : Z;
  bDestroyingPool : bool;
  PendingJobs : list ThreadJobBase;
  owner : owner_state;
  Trace : list event
}.

Inductive thread : Type :=
| Owner
| Worker (k : nat).

#[global] Instance thread_eq_dec : EqDecision thread.
Proof. solve_decision. Defined.

Definition set_thread (k : nat) (w : worker) (s : KThreadPool) : KThreadPool :=
  {| Threads := <[k:=w]> (Threads s); ActiveJobCount := ActiveJobCount s;
     bDestroyingPool := bDestroyingPool s; PendingJobs := PendingJobs s;
     owner := owner s; Trace := Trace s |}.

Definition set_active (a : Z) (s : KThreadPool) : KThreadPool :=
  {| Threads := Threads s; ActiveJobCount := a;
     bDestroyingPool := bDestroyingPool s; PendingJobs := PendingJobs s;
     owner := owner s; Trace := Trace s |}.

Definition set_destroying (b : bool) (s : KThreadPool) : KThreadPool :=
  {| Threads := Threads s; ActiveJobCount := ActiveJobCount s;
     bDestroyingPool := b; PendingJobs := PendingJobs s;
     owner := owner s; Trace := Trace s |}.

Definition set_pending (q : list ThreadJobBase) (s : KThreadPool) : KThreadPool :=
  {| Threads := Threads s; ActiveJobCount := ActiveJobCount s;
     bDestroyingPool := bDestroyingPool s; PendingJobs := q;
     owner := owner s; Trace := Trace s |}.

Definition set_owner (c : owner_state) (s : KThreadPool) : KThreadPool :=
  {| Threads := Threads s; ActiveJobCount := ActiveJobCount s;
     bDestroyingPool := bDestroyingPool s; PendingJobs := PendingJobs s;
     owner := c; Trace := Trace s |}.

Definition log (e : event) (s : KThreadPool) : KThreadPool :=
  {| Threads := Threads s; ActiveJobCount := ActiveJobCount s;
     bDestroyingPool := bDestroyingPool s; PendingJobs := PendingJobs s;
     owner := owner s; Trace := Trace s ++ [e] |}.

(** [KThreadPool::KThreadPool]: [count] threads, each at the top of its
    loop; [prog] is what the owning thread goes on to do with the pool. *)
Definition KThreadPool_new (h : Host) (count : Z) (prog : list op) : KThreadPool :=
  {| Threads := replicate (Z.to_nat (thread_count h count)) Polling;
     ActiveJobCount := 0;
     bDestroyingPool := false;
     PendingJobs := [];
     owner := Running prog;
     Trace := [] |}.

(** [PendingJobs.push_back(job)] under the lock. *)
Definition push_job (j : ThreadJobBase) (s : KThreadPool) : KThreadPool :=
  set_pending (PendingJobs s ++ [j]) s.

(** The locked block of [TakeNewJob]: the job taken, if any, and the pool
    after it. *)
Definition TakeNewJob (s : KThreadPool) : option ThreadJobBase * KThreadPool :=
  let size := length (PendingJobs s) in
  if 0 <? size then
    match PendingJobs s !! (size - 1) with
    | Some job =>
        (Some job,
         set_active (Int.to_size_t (ActiveJobCount s + 1))
           (set_pending (delete (size - 1) (PendingJobs s)) s))
    | None => (None, s)
    end
  else (None, s).

(** One atomic step of a worker in control state [w]. A claimed job is
    entered in the same step: nothing shared is touched between the end
    of the locked block and the call of [Execute]. *)
Definition worker_step (k : nat) (w : worker) (s : KThreadPool) : option KThreadPool :=
  match w with
  | Polling =>
      match TakeNewJob s with
      | (Some job, s') => Some (set_thread k (Executing job (Function job)) (log (Executed job) s'))
      | (None, s') => Some (set_thread k CheckDestroy s')
      end
  | Executing j (Invoke i :: rest) =>
      Some (set_thread k (Executing j rest) (log (Called i) s))
  | Executing j (Submit d body :: rest) =>
      Some (set_thread k (Executing j rest) (push_job (ThreadJob_flag d body) s))
  | Executing j [] =>
      Some (set_thread k Finishing
              (if bDeleteOnFinish j then log (Deleted j) s else s))
  | Finishing =>
      Some (set_thread k Polling (set_active (Int.to_size_t (ActiveJobCount s - 1)) s))
  | CheckDestroy =>
      if bDestroyingPool s
      then Some (set_thread k Terminated s)
      else Some (set_thread k Polling s)
  | Terminated => None
  end.

(** One atomic step of the owning thread. [None]: it cannot move (it has
    nothing left to do, or it is blocked in [join]). *)
Definition owner_step (s : KThreadPool) : option KThreadPool :=
  match owner s with
  | Running [] => None
  | Running (AddJobToPool j :: prog) => Some (set_owner (Running prog) (push_job j s))
  | Running (PushBulk js :: prog) =>
      Some (set_owner (Running prog) (set_pending (PendingJobs s ++ js) s))
  | Running (WaitForFinish :: prog) =>
      if 0 <? length (PendingJobs s)
      then Some s
      else Some (set_owner (WaitActive prog) s)
  | WaitActive prog =>
      if (0 <? ActiveJobCount s)%Z
      then Some (set_owner (Running (WaitForFinish :: prog)) s)
      else Some (set_owner (Running prog) s)
  | Running (Destroy :: _) => Some (set_owner (Joining 0) (set_destroying true s))
  | Joining k =>
      if k <? length (Threads s) then
        match Threads s !! k with
        | Some Terminated => Some (set_owner (Joining (S k)) s)
        | _ => None
        end
      else Some (set_owner Destroyed s)
  | Destroyed => None
  end.

Definition step (t : thread) (s : KThreadPool) : option KThreadPool :=
  match t with
  | Owner => owner_step s
  | Worker k => w ← Threads s !! k; worker_step k w s
  end.

(** A schedule is run from left to right; [None] when it asks a thread
    to move that cannot. *)
Fixpoint run (sched : list thread) (s : KThreadPool) : option KThreadPool :=
  match sched with
  | [] => Some s
  | t :: sched' => s' ← step t s; run sched' s'
  end.

(** ** Observations on a pool state *)

Definition is_busy (w : worker) : bool :=
  match w with
  | Executing _ _ | Finishing => true
  | _ => false
  end.

Definition is_terminated (w : worker) : bool :=
  match w with
  | Terminated => true
  | _ => false
  end.

(** The indices at which the user callback has been called so far, in
    order, and how many times it was called at index [i]. *)
Definition calls (s : KThreadPool) : list nat :=
  omap (λ e, match e with Called i => Some i | _ => None end) (Trace s).

Definition calls_at (i : nat) (s : KThreadPool) : nat :=
  count_occ Nat.eq_dec (calls s) i.

(** A job body that enqueues nothing and calls the callback only at
    indices satisfying [P]. *)
Definition invokes_only (P : nat → Prop) (body : list action) : Prop :=
  Forall (λ a, match a with Invoke i => P i | Submit _ _ => False end) body.

(** A job that enqueues nothing. *)
Definition plain_job (j : ThreadJobBase) : Prop :=
  invokes_only (λ _, True) (Function j).

(** What the execution of a job that enqueues nothing adds to the trace. *)
Definition body_calls (body : list action) : list event :=
  omap (λ a, match a with Invoke i => Some (Called i) | Submit _ _ => None end) body.

Definition job_events (j : ThreadJobBase) : list event :=
  Executed j :: body_calls (Function j) ++ (if bDeleteOnFinish j then [Deleted j] else []).

(** A pool state in which no job, queued, running or yet to be handed
    over, enqueues anything, and in which the callback has been and will
    be called only at indices satisfying [P]. *)
Definition worker_confined (P : nat → Prop) (w : worker) : Prop :=
  match w with
  | Executing _ rest => invokes_only P rest
  | _ => True
  end.

Definition op_confined (P : nat → Prop) (o : op) : Prop :=
  match o with
  | AddJobToPool j => invokes_only P (Function j)
  | PushBulk js => Forall (λ j, invokes_only P (Function j)) js
  | WaitForFinish | Destroy => True
  end.

Definition owner_confined (P : nat → Prop) (c : owner_state) : Prop :=
  match c with
  | Running prog | WaitActive prog => Forall (op_confined P) prog
  | Joining _ | Destroyed => True
  end.

Definition confined (P : nat → Prop) (s : KThreadPool) : Prop :=
  Forall P (calls s) ∧
  Forall (λ j, invokes_only P (Function j)) (PendingJobs s) ∧
  Forall (worker_confined P) (Threads s) ∧
  owner_confined P (owner s).

(** What the destructor has achieved so far: once it has set the flag it
    joins the threads in order, and the pool is destroyed only when all
    of them have returned. *)
Definition joined_inv (s : KThreadPool) : Prop :=
  match owner s with
  | Joining k =>
      bDestroyingPool s = true ∧ ∀ i, i < k → Threads s !! i = Some Terminated
  | Destroyed =>
      bDestroyingPool s = true ∧ Forall (λ w, w = Terminated) (Threads s)
  | Running _ | WaitActive _ => True
  end.

(** The counter of active jobs counts the workers between the claim of
    a job and the decrement that follows its execution. *)
Definition busy_count (l : list worker) : nat :=
  sum_list_with (λ w, if is_busy w then 1 else 0) l.

Definition active_inv (s : KThreadPool) : Prop :=
  ActiveJobCount s = Z.of_nat (busy_count (Threads s)) ∧
  (Z.of_nat (length (Threads s)) ≤ Int.INT_MAX)%Z.

(** Between the two reads of [WaitForFinish] the pending list stays
    empty, as long as nobody enqueues. *)
Definition wait_inv (s : KThreadPool) : Prop :=
  ∀ prog, owner s = WaitActive prog → PendingJobs s = [].

(** The idle condition: nothing queued, the counter at zero, no worker
    inside a job. *)
Definition idle (s : KThreadPool) : Prop :=
  PendingJobs s = [] ∧ ActiveJobCount s = 0%Z ∧
  Forall (λ w, is_busy w = false) (Threads s).

(** [WaitForFinish] returns in the step from [s] to [s']: the owning
    thread reads [ActiveJobCount] and leaves the loop. *)
Definition WaitForFinish_returns (s s' : KThreadPool) : Prop :=
  ∃ prog, owner s = WaitActive prog ∧ step Owner s = Some s' ∧
          owner s' = Running prog.

(** [WaitForFinish] as the specification words it: in no run from [s0]
    does it return in a state that is not idle. *)
Definition wait_spec (s0 : KThreadPool) : Prop :=
  ∀ sched s s', run sched s0 = Some s → WaitForFinish_returns s s' → idle s'.

(** How much a worker has left to do before it can terminate, once the
    destroy flag is set, and how much the whole pool has. *)
Definition worker_stage (w : worker) : nat :=
  match w with
  | Executing _ rest => length rest + 4
  | Finishing => 3
  | Polling => 2
  | CheckDestroy => 1
  | Terminated => 0
  end.

Definition work_left (s : KThreadPool) : nat :=
  sum_list_with (λ j, length (Function j) + 3) (PendingJobs s) +
  sum_list_with worker_stage (Threads s).

Definition is_push (o : op) : Prop :=
  match o with
  | AddJobToPool _ | PushBulk _ => True
  | WaitForFinish | Destroy => False
  end.

(** The owning thread is on its way out of an iteration call: it hands
    over jobs and then destroys the pool. *)
Definition returning (s : KThreadPool) : Prop :=
  match owner s with
  | Running prog => ∃ pushes, prog = pushes ++ [Destroy] ∧ Forall is_push pushes
  | WaitActive _ => False
  | Joining _ => bDestroyingPool s = true
  | Destroyed => True
  end.

(** How often index [i] is accounted for in a pool state: the calls of
    the callback made at [i], and the calls still to be made at [i] by
    the jobs the owning thread holds, by the queued jobs and by the jobs
    being executed. *)
Definition occurs (i : nat) (body : list action) : nat :=
  sum_list_with (λ a, match a with
                      | Invoke j => if i =? j then 1 else 0
                      | Submit _ _ => 0
                      end) body.

Definition job_tally (i : nat) (j : ThreadJobBase) : nat := occurs i (Function j).

Definition worker_tally (i : nat) (w : worker) : nat :=
  match w with
  | Executing _ rest => occurs i rest
  | _ => 0
  end.

Definition op_tally (i : nat) (o : op) : nat :=
  match o with
  | AddJobToPool j => job_tally i j
  | PushBulk js => sum_list_with (job_tally i) js
  | WaitForFinish | Destroy => 0
  end.

Definition owner_tally (i : nat) (c : owner_state) : nat :=
  match c with
  | Running prog | WaitActive prog => sum_list_with (op_tally i) prog
  | Joining _ | Destroyed => 0
  end.

Definition tally (i : nat) (s : KThreadPool) : nat :=
  calls_at i s + owner_tally i (owner s) +
  sum_list_with (job_tally i) (PendingJobs s) +
  sum_list_with (worker_tally i) (Threads s).

(** ** Loops *)

(** [for (size_t i = 0; i < n; i++) body], as a fold over the indices. *)
Definition for_range {St : Type} (n : nat) (body : St → nat → St) (init : St) : St :=
  fold_left body (seq 0 n) init.

(** ** Iterate *)

(** The [jobs] vector after the loop of [push_back]s. *)
Definition Iterate_jobs (elementCount : nat) : list ThreadJobBase :=
  for_range elementCount
    (λ jobs i, jobs ++ [ThreadJob_flag false [Invoke i]]) [].

(** [Iterate(func, poolSize, data, elementCount, args...)]: the pool as
    constructed, with what the calling thread does to it before the call
    returns: the bulk push, then the destructor at the end of the scope. *)
Definition Iterate (h : Host) (poolSize : Z) (elementCount : nat) : KThreadPool :=
  KThreadPool_new h (clamp_poolSize h poolSize (Z.of_nat elementCount))
    [PushBulk (Iterate_jobs elementCount); Destroy].

(** ** IterateWeighted *)

(** The conversion of a [size_t] to [double], as in
    [total / pool.Threads.size()]. *)
Definition size_to_double (n : nat) : float :=
  PrimFloat.of_uint63 (Uint63.of_Z (Z.of_nat n)).

Record IterSection := {
  Start : nat;
  End : nat
}.

(** The locals of the scan loop, and the indices at which [weightFunc]
    has been called. *)
Record scan := {
  accumWeight : float;
  sectionIndex : nat;
  newStart : nat;
  sections : list IterSection;
  weighed : list nat
}.

(** The first loop: the total weight, and the calls of [weightFunc]. *)
Definition find_total (weightFunc : nat → float) (elementCount : nat)
    : float * list nat :=
  for_range elementCount
    (λ '(total, calls) i, (PrimFloat.add total (weightFunc i), calls ++ [i]))
    (0%float, []).

(** The body of the scan loop. [sections[sectionIndex]] is an unchecked
    [operator[]]: outside the vector the behaviour is undefined, [None]. *)
Definition scan_body (weightFunc : nat → float) (elementCount : nat)
    (targetWeight : float) (st : scan) (i : nat) : option scan :=
  let objWeight := weightFunc i in
  if (i <? elementCount - 1) &&
     PrimFloat.leb (PrimFloat.add (accumWeight st) objWeight) targetWeight
  then
    Some {| accumWeight := PrimFloat.add (accumWeight st) objWeight;
            sectionIndex := sectionIndex st;
            newStart := newStart st;
            sections := sections st;
            weighed := weighed st ++ [i] |}
  else
    if sectionIndex st <? length (sections st) then
      Some {| accumWeight := 0%float;
              sectionIndex := sectionIndex st + 1;
              newStart := i + 1;
              sections := <[sectionIndex st := {| Start := newStart st; End := i |}]> (sections st);
              weighed := weighed st ++ [i] |}
    else None.

(** The scan loop over a vector of [threads] value-initialised sections,
    after its first [n] iterations. *)
Definition scan_loop (weightFunc : nat → float) (elementCount : nat)
    (targetWeight : float) (threads : nat) (n : nat) : option scan :=
  for_range n
    (λ st i, st ≫= λ st, scan_body weightFunc elementCount targetWeight st i)
    (Some {| accumWeight := 0%float; sectionIndex := 0; newStart := 0;
             sections := replicate threads {| Start := 0; End := 0 |};
             weighed := [] |}).

Definition scan_sections (weightFunc : nat → float) (elementCount : nat)
    (targetWeight : float) (threads : nat) : option scan :=
  scan_loop weightFunc elementCount targetWeight threads elementCount.

(** What holds of the locals of the scan loop after [n] iterations,
    whatever the weights, as long as every write has fallen inside the
    vector: the vector keeps its size, [weightFunc] has been called once
    at each index so far, every section ends before the last index, and
    no more sections have been closed than indices seen. *)
Definition scan_inv (elementCount threads : nat) (n : nat) (st : scan) : Prop :=
  length (sections st) = threads ∧
  weighed st = seq 0 n ∧
  Forall (λ sec, End sec ≤ elementCount - 1) (sections st) ∧
  sectionIndex st ≤ n.

(** The [iterSection] lambda: [for (size_t i = start; i < end; i++)]. *)
Definition iterSection (start end_ : nat) : list action :=
  map Invoke (seq start (end_ - start)).

(** [AddFunctionToPool(func, args...)] is
    [AddJobToPool(new ThreadJob(func, args...))]. *)
Definition AddFunctionToPool (func : list action) : op :=
  AddJobToPool (ThreadJob func).

(** The sequential part of [IterateWeighted], up to the state in which
    the last loop starts. *)
Record weighted := {
  w_threads : nat;         (* pool.Threads.size() *)
  w_target : float;        (* targetWeight *)
  w_sections : list IterSection;
  w_weighed : list nat     (* the calls of weightFunc, in order *)
}.

Definition IterateWeighted_scan (h : Host) (weightFunc : nat → float) (poolSize : Z)
    (elementCount : nat) : option weighted :=
  let '(total, calls) := find_total weightFunc elementCount in
  let threads := Z.to_nat (effective_workers h poolSize (Z.of_nat elementCount)) in
  let targetWeight := PrimFloat.div total (size_to_double threads) in
  st ← scan_sections weightFunc elementCount targetWeight threads;
  Some {| w_threads := threads; w_target := targetWeight;
          w_sections := sections st; w_weighed := calls ++ weighed st |}.

(** The jobs of the last loop, one per element of [sections]. *)
Definition section_ops (secs : list IterSection) : list op :=
  map (λ section, AddFunctionToPool (iterSection (Start section) (End section))) secs.

(** [IterateWeighted(func, weightFunc, poolSize, data, elementCount, args...)]:
    the pool as constructed, with what the calling thread does to it
    before the call returns (one [AddFunctionToPool] per section, then the
    destructor), and the calls of [weightFunc] made on the way. *)
Definition IterateWeighted (h : Host) (weightFunc : nat → float) (poolSize : Z)
    (elementCount : nat) : option (KThreadPool * list nat) :=
  r ← IterateWeighted_scan h weightFunc poolSize elementCount;
  Some (KThreadPool_new h (clamp_poolSize h poolSize (Z.of_nat elementCount))
          (section_ops (w_sections r) ++ [Destroy]),
        w_weighed r).

(** Index [i] lies in the half-open range of a section, that is,
    [iterSection] reaches it. *)
Definition in_section (i : nat) (sec : IterSection) : bool :=
  (Start sec <=? i) && (i <? End sec).

Definition covered (i : nat) (secs : list IterSection) : bool :=
  existsb (in_section i) secs.

(** How many of the sections reach index [i]. *)
Definition times_covered (i : nat) (secs : list IterSection) : nat :=
  length (List.filter (in_section i) secs).

(** What holds of the sections after [n] iterations of the scan loop,
    whatever the weights: the sections not yet written are empty, no
    index lies in two sections, and none at or after [newStart] lies in
    any. *)
Definition scan_disjoint (n : nat) (st : scan) : Prop :=
  newStart st ≤ n ∧
  (∀ k sec, sectionIndex st ≤ k → sections st !! k = Some sec →
            sec = {| Start := 0; End := 0 |}) ∧
  (∀ i, times_covered i (sections st) ≤ 1) ∧
  (∀ i, newStart st ≤ i → times_covered i (sections st) = 0).

(** The jobs a call hands to its pool: those the owning thread is
    about to enqueue. *)
Definition submitted (prog : list op) : list ThreadJobBase :=
  flat_map (λ o, match o with
                 | AddJobToPool j => [j]
                 | PushBulk js => js
                 | WaitForFinish | Destroy => []
                 end) prog.

Definition created_jobs (s : KThreadPool) : list ThreadJobBase :=
  match owner s with
  | Running prog => submitted prog
  | _ => []
  end.

(** ** The element dispatcher *)

(** Parameter types the dispatcher asks [std::is_invocable] about. *)
Inductive param : Type :=
| T_elem           (* T itself, when T is a pointer type *)
| T_elem_ptr       (* T* *)
| T_size_t
| T_arg (n : nat). (* the n-th type of TArgs... *)

(** A callback, as far as the selection sees it: the value of
    [std::is_invocable<Functor, Ts...>] for a list of argument types. *)
Record Functor := {
  is_invocable : list param → bool
}.

(** The sequence [T* data]. [element i] is the value stored at [data[i]];
    it is an address when [T] is a pointer type. *)
Record Sequence := {
  is_pointer : bool;   (* std::is_pointer<T>::value *)
  data : Z;
  sizeof_T : Z;
  element : nat → Z
}.

Section Dispatcher.

Context {X : Type}.

(** An argument of one call of the callback. *)
Inductive argument : Type :=
| Pointer (a : Z)
| Index (i : nat)
| Forwarded (x : X).

Definition TArgs (args : list X) : list param :=
  imap (λ n _, T_arg n) args.

(** [&data[i]]. *)
Definition address_of (d : Sequence) (i : nat) : Z :=
  (data d + Z.of_nat i * sizeof_T d)%Z.

(** [IterCallback(func, data, i, args...)]: the argument list of the one
    call of [func] it makes. *)
Definition IterCallback (func : Functor) (d : Sequence) (i : nat) (args : list X)
    : list argument :=
  if is_pointer d then
    if is_invocable func ([T_elem; T_size_t; T_elem] ++ TArgs args)
    then [Pointer (element d i); Index i; Pointer (element d 0)] ++ map Forwarded args
    else if is_invocable func ([T_elem; T_size_t] ++ TArgs args)
    then [Pointer (element d i); Index i] ++ map Forwarded args
    else [Pointer (element d i)] ++ map Forwarded args
  else
    if is_invocable func ([T_elem_ptr; T_size_t; T_elem_ptr] ++ TArgs args)
    then [Pointer (address_of d i); Index i; Pointer (data d)] ++ map Forwarded args
    else if is_invocable func ([T_elem_ptr; T_size_t] ++ TArgs args)
    then [Pointer (address_of d i); Index i] ++ map Forwarded args
    else [Pointer (address_of d i)] ++ map Forwarded args.

(** The pointer to element [i] that every shape passes first, and its
    type. *)
Definition element_pointer (d : Sequence) (i : nat) : Z :=
  if is_pointer d then element d i else address_of d i.

Definition pointer_type (d : Sequence) : param :=
  if is_pointer d then T_elem else T_elem_ptr.

(** The three shapes, most specific first; [whole] is what shape (a)
    passes third. *)
Definition shaped_call (func : Functor) (d : Sequence) (i : nat) (args : list X)
    (whole : Z) : list argument :=
  let P := pointer_type d in
  if is_invocable func ([P; T_size_t; P] ++ TArgs args)
  then [Pointer (element_pointer d i); Index i; Pointer whole] ++ map Forwarded args
  else if is_invocable func ([P; T_size_t] ++ TArgs args)
  then [Pointer (element_pointer d i); Index i] ++ map Forwarded args
  else [Pointer (element_pointer d i)] ++ map Forwarded args.

(** The dispatcher as the specification words it: in shape (a) the third
    argument is the base pointer of the sequence. *)
Definition dispatch_spec (func : Functor) (d : Sequence) (i : nat) (args : list X) : Prop :=
  IterCallback func d i args = shaped_call func d i args (data d).

End Dispatcher.

Arguments argument : clear implicits.

(** ** The iteration calls as the specification words them *)

(** Every job of the call is owned by the caller. *)
Definition externally_owned (s : KThreadPool) : Prop :=
  Forall (λ j, bDeleteOnFinish j = false) (created_jobs s).

(** The sections do not overlap and jointly cover [[0, L)]: every index
    below [L] lies in exactly one of them. *)
Definition partitions (L : nat) (secs : list IterSection) : Prop :=
  ∀ i, i < L → times_covered i secs = 1.

(** The callback has been called exactly once at every index below [L]. *)
Definition each_index_once (L : nat) (s : KThreadPool) : Prop :=
  ∀ i, i < L → calls_at i s = 1.

(** The weights of the specification's scenario: ten integers [0..9],
    weight [value + 1]. *)
Definition value_plus_one (i : nat) : float := size_to_double (i + 1).

(** ** The effective worker count as the specification words it *)

(** The effective worker count never exceeds [min(W, L)] when [W > 0],
    equals [min(cores, L)] when [W == 0], and is at least 1 for [L > 0]. *)
Definition effective_count_spec (h : Host) (W L : Z) : Prop :=
  ((0 < W)%Z → (effective_workers h W L ≤ Z.min W L)%Z) ∧
  (W = 0%Z → effective_workers h W L = Z.min (GetCpuCoreCount h) L) ∧
  ((0 < L)%Z → (1 ≤ effective_workers h W L)%Z).

(** A negative request is clamped to the element count. *)
Definition negative_request_spec (h : Host) (W L : Z) : Prop :=
  effective_workers h W L = L.

(** A host with eight cores and no default thread count configured. *)
Definition host8 : Host := {| GetCpuCoreCount := 8; DefaultThreadCount := 0 |}.

(** A job that enqueues a job of its own, submitted by a thread that then
    waits for the pool to finish. *)
Definition nested_submission : list op :=
  [AddFunctionToPool [Submit true []]; WaitForFinish].

(** A pool of one worker whose destructor has set the flag, with the
    worker at its flag test, and the same pool after the worker's step. *)
Definition flag_test_state : KThreadPool :=
  {| Threads := [CheckDestroy]; ActiveJobCount := 0; bDestroyingPool := true;
     PendingJobs := []; owner := Joining 0; Trace := [] |}.

Definition terminated_state : KThreadPool :=
  {| Threads := [Terminated]; ActiveJobCount := 0; bDestroyingPool := true;
     PendingJobs := []; owner := Joining 0; Trace := [] |}.

(** ** Further observations and invariants *)

(** [IsPendingDestroy()] and [GetPendingJobCount()]. *)
Definition IsPendingDestroy (s : KThreadPool) : bool := bDestroyingPool s.

Definition GetPendingJobCount (s : KThreadPool) : nat := length (PendingJobs s).

(** The state a schedule leads to ([s] itself when the schedule cannot
    be run). *)
Definition state_after (sched : list thread) (s : KThreadPool) : KThreadPool :=
  default s (run sched s).

(** The destructor has not begun. *)
Definition alive (s : KThreadPool) : Prop :=
  match owner s with
  | Running _ | WaitActive _ => True
  | Joining _ | Destroyed => False
  end.

(** While the destructor has not begun the flag is clear, and while the
    flag is clear no worker has returned. *)
Definition alive_inv (s : KThreadPool) : Prop :=
  (alive s → bDestroyingPool s = false) ∧
  (bDestroyingPool s = false → Forall (λ w, is_terminated w = false) (Threads s)).

(** How many steps the destructor still has to take: one per thread not
    yet joined, and the last one. *)
Definition joins_left (s : KThreadPool) : nat :=
  match owner s with
  | Joining k => length (Threads s) - k + 1
  | _ => 0
  end.

(** No job in the pool, queued, running or still to be handed over,
    deletes itself, and none has. *)
Definition never_deletes (s : KThreadPool) : Prop :=
  Forall (λ j, bDeleteOnFinish j = false) (PendingJobs s) ∧
  Forall (λ w, match w with
               | Executing j _ => bDeleteOnFinish j = false
               | _ => True
               end) (Threads s) ∧
  match owner s with
  | Running prog | WaitActive prog =>
      Forall (λ j, bDeleteOnFinish j = false) (submitted prog)
  | Joining _ | Destroyed => True
  end ∧
  Forall (λ e, match e with Deleted _ => False | _ => True end) (Trace s).

(** A program of the owning thread in which the destructor, if it
    comes at all, comes last. *)
Fixpoint nothing_after_destroy (prog : list op) : Prop :=
  match prog with
  | [] => True
  | Destroy :: prog' => prog' = []
  | _ :: prog' => nothing_after_destroy prog'
  end.

Definition owner_well_formed (s : KThreadPool) : Prop :=
  match owner s with
  | Running prog | WaitActive prog => nothing_after_destroy prog
  | Joining _ | Destroyed => True
  end.

(** How many indices below [m] the sections reach, counted with
    multiplicity, and how many of the first [L] indices lie in some
    section. *)
Definition reach (m : nat) (secs : list IterSection) : nat :=
  sum_list_with (λ i, times_covered i secs) (seq 0 m).

Definition processed (L : nat) (secs : list IterSection) : nat :=
  length (List.filter (λ i, covered i secs) (seq 0 L)).

(** What the scan keeps count of: every section it has closed ends on an
    index that the section itself leaves out. *)
Definition scan_count (elementCount n : nat) (st : scan) : Prop :=
  sectionIndex st ≤ newStart st ∧
  sectionIndex st ≤ length (sections st) ∧
  reach (newStart st) (sections st) + sectionIndex st = newStart st ∧
  (n = elementCount → 0 < elementCount →
   newStart st = elementCount ∧ 1 ≤ sectionIndex st).

(** ** What is left to run once the destructor has begun *)

(** The steps a worker spends on an action of a job body, those spent
    on the job that the action enqueues included: a queued job costs the
    step that claims it, its body, the end of [Execute] and the decrement
    of the counter. *)
Fixpoint action_cost (a : action) : nat :=
  match a with
  | Invoke _ => 1
  | Submit _ body => 4 + sum_list_with action_cost body
  end.

Definition body_cost (body : list action) : nat := sum_list_with action_cost body.

(** The steps a worker has before it, the flag being set, when nothing
    is queued any more. *)
Definition worker_effort (w : worker) : nat :=
  match w with
  | Executing _ rest => body_cost rest + 4
  | Finishing => 3
  | Polling => 2
  | CheckDestroy => 1
  | Terminated => 0
  end.

Definition effort_left (s : KThreadPool) : nat :=
  sum_list_with (λ j, body_cost (Function j) + 3) (PendingJobs s) +
  sum_list_with worker_effort (Threads s).

(** A pool of one worker whose destructor has just set the flag; one
    whose destructor has joined the worker; and the same pool destroyed. *)
Definition destructing_state : KThreadPool :=
  {| Threads := [Polling]; ActiveJobCount := 0; bDestroyingPool := true;
     PendingJobs := []; owner := Joining 0; Trace := [] |}.

Definition joined_state : KThreadPool :=
  {| Threads := [Terminated]; ActiveJobCount := 0; bDestroyingPool := true;
     PendingJobs := []; owner := Joining 1; Trace := [] |}.

Definition destroyed_state : KThreadPool :=
  {| Threads := [Terminated]; ActiveJobCount := 0; bDestroyingPool := true;
     PendingJobs := []; owner := Destroyed; Trace := [] |}.

(** A host with eight cores on which [DefaultThreadCount] was set to 64. *)
Definition host64 : Host := {| GetCpuCoreCount := 8; DefaultThreadCount := 64 |}.

(** Eleven non-negative weights: ten times the [double] nearest to 0.1,
    then 0. *)
Definition tenths (i : nat) : float :=
  if i <? 10 then 0x1.999999999999ap-4%float else 0%float.

(** * Theorems *)

(** ** Machine integers *)

Lemma to_int_id z : Int.is_int z → Int.to_int z = z.
Proof.
  unfold Int.is_int, Int.to_int, Int.INT_MAX. intros H.
  rewrite Z.mod_small; lia.
Qed.

Lemma to_size_t_id z : Int.is_size_t z → Int.to_size_t z = z.
Proof.
  unfold Int.is_size_t, Int.to_size_t, Int.SIZE_MAX. intros H.
  rewrite Z.mod_small; lia.
Qed.

Lemma to_size_t_neg z : (- 2 ^ 31 ≤ z < 0)%Z → Int.to_size_t z = (z + 2 ^ 64)%Z.
Proof.
  unfold Int.to_size_t. intros H.
  rewrite <- (Z.mod_add z 1 (2 ^ 64)) by lia.
  rewrite Z.mod_small; lia.
Qed.

(** ** The effective worker count (C3, C9) *)

Lemma thread_count_pos h count : (1 ≤ thread_count h count)%Z.
Proof.
  unfold thread_count.
  repeat match goal with |- context [if ?b then _ else _] => destruct b eqn:? end; lia.
Qed.

Lemma thread_count_id h count : (0 < count)%Z → thread_count h count = count.
Proof.
  intros H. unfold thread_count.
  destruct (Z.eqb_spec count 0); [lia|].
  destruct (Z.leb_spec count 0); [lia|done].
Qed.

(** A positive request that fits an [int], against a non-empty sequence. *)
Lemma clamp_poolSize_pos h W L :
  (0 < W ≤ Int.INT_MAX)%Z → (0 < L ≤ Int.SIZE_MAX)%Z →
  clamp_poolSize h W L = Z.min W L.
Proof.
  intros HW HL. unfold clamp_poolSize.
  destruct (Z.eqb_spec W 0); [lia|].
  rewrite to_size_t_id by (unfold Int.is_size_t, Int.SIZE_MAX, Int.INT_MAX in *; lia).
  destruct (Z.gtb_spec W L).
  - rewrite to_int_id by (unfold Int.is_int, Int.INT_MAX in *; lia). lia.
  - lia.
Qed.

(** Where C3 holds: for a non-empty sequence the effective worker count
    is [min(W, L)] when [W > 0] (so it never exceeds it), [min(cores, L)]
    when [W == 0], and at least 1. For an empty sequence the clamp hands
    0 to the pool constructor, whatever was requested. *)
Lemma effective_workers_nonempty (h : Host) (W L : Z) :
  (0 < GetCpuCoreCount h ≤ Int.INT_MAX)%Z →
  (0 ≤ W ≤ Int.INT_MAX)%Z →
  (0 ≤ L ≤ Int.SIZE_MAX)%Z →
  ((0 < L)%Z →
     ((0 < W)%Z → effective_workers h W L = Z.min W L) ∧
     (W = 0%Z → effective_workers h W L = Z.min (GetCpuCoreCount h) L) ∧
     (1 ≤ effective_workers h W L)%Z) ∧
  (L = 0%Z →
     effective_workers h W L = thread_count h 0 ∧
     (1 ≤ effective_workers h W L)%Z).
Proof.
  intros Hc HW HL. split.
  - intros HL0. split; [|split].
    + intros HW0. unfold effective_workers.
      rewrite clamp_poolSize_pos by lia. apply thread_count_id. lia.
    + intros ->. unfold effective_workers.
      replace (clamp_poolSize h 0 L) with (clamp_poolSize h (GetCpuCoreCount h) L).
      * rewrite clamp_poolSize_pos by lia. apply thread_count_id. lia.
      * unfold clamp_poolSize. simpl.
        destruct (Z.eqb_spec (GetCpuCoreCount h) 0); [lia|done].
    + apply thread_count_pos.
  - intros ->. split; [|apply thread_count_pos].
    unfold effective_workers. f_equal. unfold clamp_poolSize.
    assert (Hs : ∀ z, (0 < z ≤ Int.INT_MAX)%Z → (Int.to_size_t z >? 0)%Z = true).
    { intros z Hz. rewrite to_size_t_id; [lia|].
      unfold Int.is_size_t, Int.SIZE_MAX, Int.INT_MAX in *. lia. }
    destruct (Z.eqb_spec W 0).
    + rewrite Hs by lia. done.
    + rewrite Hs by lia. done.
Qed.

Lemma effective_workers_nonempty_witness :
  ((0 < 10)%Z →
     ((0 < 3)%Z → effective_workers host8 3 10 = Z.min 3 10) ∧
     (3%Z = 0%Z → effective_workers host8 3 10 = Z.min (GetCpuCoreCount host8) 10) ∧
     (1 ≤ effective_workers host8 3 10)%Z) ∧
  (10%Z = 0%Z →
     effective_workers host8 3 10 = thread_count host8 0 ∧
     (1 ≤ effective_workers host8 3 10)%Z).
Proof.
  apply (effective_workers_nonempty host8 3 10); vm_compute; split; congruence.
Defined.

(** C3 fails on an empty sequence. The clamp sets the request to the
    element count, 0, and the constructor reads 0 as a request for its
    default: with one worker requested on a host with eight cores the
    ephemeral pool of [Iterate] and of [IterateWeighted] has eight
    threads, and 64 where [DefaultThreadCount] is 64, not at most
    [min(1, 0) = 0]. *)
Theorem effective_count_spec_empty_fails :
  clamp_poolSize host8 1 0 = 0%Z ∧
  effective_workers host8 1 0 = 8%Z ∧
  effective_workers host64 1 0 = 64%Z ∧
  length (Threads (Iterate host8 1 0)) = 8 ∧
  (∃ p wl, IterateWeighted host8 value_plus_one 1 0 = Some (p, wl) ∧
           length (Threads p) = 8) ∧
  ¬ effective_count_spec host8 1 0.
Proof.
  split; [reflexivity|]. split; [reflexivity|]. split; [reflexivity|].
  split; [reflexivity|].
  split; [eexists _, _; split; [vm_compute; reflexivity|reflexivity]|].
  intros (H & _ & _). specialize (H ltac:(lia)). vm_compute in H. congruence.
Qed.

(** C9, as amended: for a negative request and a non-empty sequence whose
    length fits an [int], the effective worker count is the length. *)
Theorem negative_request_uses_length (h : Host) (W L : Z) :
  (- 2 ^ 31 ≤ W < 0)%Z →
  (0 < L ≤ Int.INT_MAX)%Z →
  effective_workers h W L = L.
Proof.
  intros HW HL. unfold effective_workers, clamp_poolSize.
  destruct (Z.eqb_spec W 0); [lia|].
  rewrite to_size_t_neg by lia.
  destruct (Z.gtb_spec (W + 2 ^ 64) L) as [_|Hle].
  - rewrite to_int_id by (unfold Int.is_int, Int.INT_MAX in *; lia).
    apply thread_count_id. lia.
  - unfold Int.INT_MAX in *. lia.
Qed.

Lemma negative_request_uses_length_witness : effective_workers host8 (-1) 5 = 5%Z.
Proof.
  apply (negative_request_uses_length host8 (-1) 5); vm_compute; split; congruence.
Defined.

(** C9 as stated fails once the length no longer fits an [int]: for
    [2^31] elements the cast gives [INT_MIN], and the pool constructor
    clamps that to one thread. *)
Lemma negative_request_spec_large_fails : ¬ negative_request_spec host8 (-1) (2 ^ 31).
Proof.
  unfold negative_request_spec. vm_compute. congruence.
Qed.

(** ** The element dispatcher (C4) *)

(** C4, as amended: the dispatcher picks the first of the three shapes
    the callback is invocable with, passes the pointer to the element
    first, and appends the forwarded arguments after the positional ones
    in every shape; what shape (a) passes third is the base pointer of
    the sequence when the element type is not a pointer, and the first
    element of the sequence ([*data]) when it is. *)
Theorem IterCallback_shapes {X : Type} (func : Functor) (d : Sequence) (i : nat)
    (args : list X) :
  IterCallback func d i args =
    shaped_call func d i args (if is_pointer d then element d 0 else data d) ∧
  (is_invocable func ([pointer_type d; T_size_t; pointer_type d] ++ TArgs args) = true →
   IterCallback func d i args !! 2 =
     Some (Pointer (if is_pointer d then element d 0 else data d))) ∧
  (∃ positional,
     IterCallback func d i args = positional ++ map Forwarded args ∧
     positional !! 0 = Some (Pointer (element_pointer d i)) ∧
     Forall (λ a, ∀ x, a ≠ Forwarded x) positional ∧
     1 ≤ length positional ≤ 3).
Proof.
  split; [|split].
  - unfold IterCallback, shaped_call, pointer_type, element_pointer.
    destruct (is_pointer d); reflexivity.
  - unfold IterCallback, pointer_type. destruct (is_pointer d); by intros ->.
  - unfold IterCallback, element_pointer.
    destruct (is_pointer d);
      repeat match goal with |- context [if ?b then _ else _] => destruct b end;
      eexists; (split; [reflexivity|]); (split; [reflexivity|]);
      (split; [repeat constructor; intros; discriminate | simpl; lia]).
Qed.

(** A callback invocable with every argument list, and a sequence of
    three pointers stored at address 4096 that point to objects at 8192,
    8256 and 8320. *)
Lemma dispatch_spec_pointer_elements_fail :
  ¬ dispatch_spec (X := nat) {| is_invocable := λ _, true |}
      {| is_pointer := true; data := 4096; sizeof_T := 8;
         element := λ i, (8192 + 64 * Z.of_nat i)%Z |} 1 [].
Proof.
  unfold dispatch_spec. vm_compute. intros H. discriminate H.
Qed.

(** ** The job queue (C6) *)

Lemma TakeNewJob_last (s : KThreadPool) (q : list ThreadJobBase) (j : ThreadJobBase) :
  PendingJobs s = q ++ [j] →
  TakeNewJob s =
    (Some j, set_active (Int.to_size_t (ActiveJobCount s + 1)) (set_pending q s)).
Proof.
  intros Hq. unfold TakeNewJob. rewrite Hq, length_app. simpl.
  replace (length q + 1 - 1) with (length q) by lia.
  destruct (Nat.ltb_spec 0 (length q + 1)); [|lia].
  rewrite list_lookup_middle by done.
  rewrite delete_middle, app_nil_r. done.
Qed.

Lemma TakeNewJob_empty (s : KThreadPool) :
  PendingJobs s = [] → TakeNewJob s = (None, s).
Proof. intros Hq. unfold TakeNewJob. rewrite Hq. done. Qed.

Lemma TakeNewJob_cases (s : KThreadPool) :
  (PendingJobs s = [] ∧ TakeNewJob s = (None, s)) ∨
  (∃ q j, PendingJobs s = q ++ [j] ∧
     TakeNewJob s =
       (Some j, set_active (Int.to_size_t (ActiveJobCount s + 1)) (set_pending q s))).
Proof.
  destruct (PendingJobs s) as [|j q _] eqn:Hq using rev_ind.
  - left. split; [done|]. by apply TakeNewJob_empty.
  - right. exists q, j. split; [done|]. by apply TakeNewJob_last.
Qed.

(** Case analysis on a step: one goal per way a thread can move. *)
Ltac step_inv H :=
  match type of H with
  | step ?t ?s = Some _ =>
      let k := fresh "k" in
      let Hw := fresh "Hw" in
      let Hq := fresh "Hq" in
      let Ht := fresh "Ht" in
      destruct t as [|k]; simpl in H;
      [ unfold owner_step in H; repeat case_match; simplify_eq
      | destruct (Threads s !! k) as [[]|] eqn:Hw; simpl in H;
        [ destruct (TakeNewJob_cases s) as [[Hq Ht]|(? & ? & Hq & Ht)];
          rewrite Ht in H; simplify_eq
        | repeat case_match; simplify_eq
        | simplify_eq
        | case_match; simplify_eq
        | simplify_eq
        | simplify_eq ] ]
  end.

(** Whatever a step does, the trace only grows. *)
Lemma step_trace (t : thread) (s s' : KThreadPool) :
  step t s = Some s' → ∃ es, Trace s' = Trace s ++ es.
Proof.
  intros H. step_inv H; simpl; eauto; by (exists []; rewrite app_nil_r).
Qed.

Lemma run_trace (sched : list thread) (s s' : KThreadPool) :
  run sched s = Some s' → ∃ es, Trace s' = Trace s ++ es.
Proof.
  revert s. induction sched as [|t sched IH]; intros s H; simplify_eq/=.
  - exists []. by rewrite app_nil_r.
  - destruct (step t s) as [s1|] eqn:Hs; simplify_eq/=.
    destruct (step_trace _ _ _ Hs) as [es1 H1].
    destruct (IH _ H) as [es2 H2].
    exists (es1 ++ es2). by rewrite H2, H1, app_assoc.
Qed.

(** A worker alone runs the rest of a job body that enqueues nothing. *)
Lemma run_body (rest : list action) (s : KThreadPool) (k : nat) (j : ThreadJobBase) :
  Threads s !! k = Some (Executing j rest) →
  invokes_only (λ _, True) rest →
  run (replicate (length rest) (Worker k)) s =
    Some {| Threads := <[k:=Executing j []]> (Threads s);
            ActiveJobCount := ActiveJobCount s;
            bDestroyingPool := bDestroyingPool s;
            PendingJobs := PendingJobs s;
            owner := owner s;
            Trace := Trace s ++ body_calls rest |}.
Proof.
  revert s. induction rest as [|a rest IH]; intros s Hk Hp.
  - simpl. rewrite app_nil_r, list_insert_id by done. by destruct s.
  - inversion Hp as [|a' rest' Ha Hrest]; subst.
    destruct a as [i|]; [|done].
    simpl. rewrite Hk. simpl.
    rewrite IH; simpl.
    + by rewrite list_insert_insert_eq, <- app_assoc.
    + apply list_lookup_insert_eq. by eapply lookup_lt_Some.
    + done.
Qed.

Lemma run_app (sched1 sched2 : list thread) (s : KThreadPool) :
  run (sched1 ++ sched2) s = run sched1 s ≫= run sched2.
Proof.
  revert s. induction sched1 as [|t sched1 IH]; intros s; simpl; [done|].
  destruct (step t s); simpl; [apply IH|done].
Qed.

(** C6: the locked block of [TakeNewJob] removes and returns the last
    element of the pending list. So after [A] then [B] are enqueued, a
    worker that is the only consumer first executes [B], with [A] still
    queued behind it; and when [B] enqueues nothing, the same worker's
    next dequeue executes [A]. *)
Theorem dequeue_is_LIFO (s : KThreadPool) (k : nat) (A B : ThreadJobBase) :
  Threads s !! k = Some Polling →
  (∀ q j, PendingJobs s = q ++ [j] →
     (TakeNewJob s).1 = Some j ∧ PendingJobs (TakeNewJob s).2 = q) ∧
  (TakeNewJob (push_job B (push_job A s))).1 = Some B ∧
  PendingJobs (TakeNewJob (push_job B (push_job A s))).2 = PendingJobs s ++ [A] ∧
  (∀ n s', run (replicate (S n) (Worker k)) (push_job B (push_job A s)) = Some s' →
     ∃ es, Trace s' = Trace s ++ Executed B :: es) ∧
  (plain_job B →
     ∃ s', run (replicate (length (Function B) + 4) (Worker k))
             (push_job B (push_job A s)) = Some s' ∧
           Trace s' = Trace s ++ job_events B ++ [Executed A] ∧
           PendingJobs s' = PendingJobs s).
Proof.
  intros Hk.
  assert (Htake : TakeNewJob (push_job B (push_job A s)) =
            (Some B, set_active (Int.to_size_t (ActiveJobCount s + 1))
                       (set_pending (PendingJobs s ++ [A]) (push_job B (push_job A s))))).
  { by rewrite (TakeNewJob_last (push_job B (push_job A s)) (PendingJobs s ++ [A]) B). }
  split; [|split; [|split; [|split]]].
  - intros q j Hq. by rewrite (TakeNewJob_last s q j).
  - by rewrite Htake.
  - by rewrite Htake.
  - intros n s' Hrun. simpl in Hrun. rewrite Hk in Hrun. simpl in Hrun.
    rewrite Htake in Hrun. simpl in Hrun.
    destruct (run_trace _ _ _ Hrun) as [es Hes]. simpl in Hes.
    exists es. by rewrite Hes, <- app_assoc.
  - intros HB.
    replace (length (Function B) + 4) with (1 + (length (Function B) + 3)) by lia.
    rewrite replicate_add, run_app. simpl. rewrite Hk. simpl.
    rewrite Htake. simpl.
    rewrite replicate_add, run_app.
    rewrite (run_body _ _ k B); simpl.
    + rewrite !list_insert_insert_eq.
      rewrite !list_lookup_insert_eq by (by eapply lookup_lt_Some).
      simpl.
      assert (Hlen : k < length (Threads s)) by (by eapply lookup_lt_Some).
      destruct (bDeleteOnFinish B) eqn:HdB; simpl;
        rewrite !list_insert_insert_eq, !list_lookup_insert_eq by done; simpl;
        rewrite !list_insert_insert_eq, !list_lookup_insert_eq by done; simpl.
      * erewrite TakeNewJob_last by (simpl; reflexivity). simpl.
        eexists. split; [reflexivity|]. simpl. split; [|done].
        rewrite ?app_nil_r, <- ?app_assoc. done.
      * erewrite TakeNewJob_last by (simpl; reflexivity). simpl.
        eexists. split; [reflexivity|]. simpl. split; [|done].
        rewrite ?app_nil_r, <- ?app_assoc. done.
    + apply list_lookup_insert_eq. by eapply lookup_lt_Some.
    + done.
Qed.

Lemma dequeue_is_LIFO_witness :
  (∀ q j, PendingJobs (KThreadPool_new host8 1 []) = q ++ [j] →
     (TakeNewJob (KThreadPool_new host8 1 [])).1 = Some j ∧
     PendingJobs (TakeNewJob (KThreadPool_new host8 1 [])).2 = q) ∧
  (TakeNewJob (push_job (ThreadJob [Invoke 1])
                 (push_job (ThreadJob [Invoke 0]) (KThreadPool_new host8 1 [])))).1
    = Some (ThreadJob [Invoke 1]) ∧
  PendingJobs (TakeNewJob (push_job (ThreadJob [Invoke 1])
                 (push_job (ThreadJob [Invoke 0]) (KThreadPool_new host8 1 [])))).2
    = PendingJobs (KThreadPool_new host8 1 []) ++ [ThreadJob [Invoke 0]] ∧
  (∀ n s', run (replicate (S n) (Worker 0))
             (push_job (ThreadJob [Invoke 1])
                (push_job (ThreadJob [Invoke 0]) (KThreadPool_new host8 1 []))) = Some s' →
     ∃ es, Trace s' = Trace (KThreadPool_new host8 1 []) ++ Executed (ThreadJob [Invoke 1]) :: es) ∧
  (plain_job (ThreadJob [Invoke 1]) →
     ∃ s', run (replicate (length (Function (ThreadJob [Invoke 1])) + 4) (Worker 0))
             (push_job (ThreadJob [Invoke 1])
                (push_job (ThreadJob [Invoke 0]) (KThreadPool_new host8 1 []))) = Some s' ∧
           Trace s' = Trace (KThreadPool_new host8 1 []) ++
                        job_events (ThreadJob [Invoke 1]) ++ [Executed (ThreadJob [Invoke 0])] ∧
           PendingJobs s' = PendingJobs (KThreadPool_new host8 1 [])).
Proof.
  apply (dequeue_is_LIFO (KThreadPool_new host8 1 []) 0
           (ThreadJob [Invoke 0]) (ThreadJob [Invoke 1])).
  reflexivity.
Defined.

(** ** The scan of IterateWeighted *)

Lemma for_range_S {St : Type} (n : nat) (body : St → nat → St) (init : St) :
  for_range (S n) body init = body (for_range n body init) n.
Proof. unfold for_range. by rewrite seq_S, fold_left_app. Qed.

Lemma find_total_S (weightFunc : nat → float) (n : nat) :
  find_total weightFunc (S n) =
    (PrimFloat.add (find_total weightFunc n).1 (weightFunc n),
     (find_total weightFunc n).2 ++ [n]).
Proof.
  unfold find_total. rewrite for_range_S.
  by destruct (for_range n _ _).
Qed.

Lemma find_total_calls (weightFunc : nat → float) (n : nat) :
  (find_total weightFunc n).2 = seq 0 n.
Proof.
  induction n as [|n IH]; [done|].
  by rewrite find_total_S, seq_S, IH.
Qed.

Lemma scan_loop_S (weightFunc : nat → float) (elementCount : nat) (targetWeight : float)
    (threads n : nat) :
  scan_loop weightFunc elementCount targetWeight threads (S n) =
    scan_loop weightFunc elementCount targetWeight threads n ≫=
      λ st, scan_body weightFunc elementCount targetWeight st n.
Proof. unfold scan_loop. by rewrite for_range_S. Qed.

(** Whatever the weights and however their sums round, a scan that has
    stayed inside the vector for [n] iterations satisfies [scan_inv]. *)
Lemma scan_loop_inv (weightFunc : nat → float) (elementCount : nat) (targetWeight : float)
    (threads n : nat) (st : scan) :
  n ≤ elementCount →
  scan_loop weightFunc elementCount targetWeight threads n = Some st →
  scan_inv elementCount threads n st.
Proof.
  revert st. induction n as [|n IH]; intros st Hn Hst.
  - injection Hst as <-. unfold scan_inv. simpl.
    split; [by rewrite length_replicate|]. split; [done|].
    split; [apply Forall_replicate; simpl; lia|done].
  - rewrite scan_loop_S in Hst.
    destruct (scan_loop weightFunc elementCount targetWeight threads n) as [st0|];
      [|done].
    destruct (IH st0 ltac:(lia) eq_refl) as (Hlen & Hw & Hend & Hk).
    simpl in Hst. unfold scan_body in Hst. unfold scan_inv.
    destruct ((n <? elementCount - 1) && _); simplify_eq;
      cbn [weighed sections sectionIndex].
    { rewrite seq_S, Hw. repeat split; try done. lia. }
    destruct (sectionIndex st0 <? length (sections st0)); simplify_eq;
      cbn [weighed sections sectionIndex].
    rewrite length_insert, seq_S, Hw.
    split; [done|]. split; [done|].
    split; [apply Forall_insert; [done|simpl; lia]|lia].
Qed.

(** A vector with at least as many sections as the sequence has
    elements is never left: the scan closes at most one section per
    index. *)
Lemma scan_loop_defined (weightFunc : nat → float) (elementCount : nat)
    (targetWeight : float) (threads n : nat) :
  elementCount ≤ threads → n ≤ elementCount →
  is_Some (scan_loop weightFunc elementCount targetWeight threads n).
Proof.
  intros Hth. induction n as [|n IH]; intros Hn; [by eexists|].
  destruct IH as [st Hst]; [lia|].
  destruct (scan_loop_inv weightFunc elementCount targetWeight threads n st
              ltac:(lia) Hst) as (Hlen & _ & _ & Hk).
  rewrite scan_loop_S, Hst. simpl. unfold scan_body.
  destruct ((n <? elementCount - 1) && _); [by eexists|].
  destruct (Nat.ltb_spec (sectionIndex st) (length (sections st))); [by eexists|lia].
Qed.

Lemma sum_list_with_insert {A : Type} (f : A → nat) (l : list A) (k : nat) (x x0 : A) :
  l !! k = Some x0 →
  sum_list_with f (<[k:=x]> l) + f x0 = sum_list_with f l + f x.
Proof.
  revert k. induction l as [|y l IH]; intros [|k] Hk; simplify_eq/=.
  - lia.
  - specialize (IH k Hk). lia.
Qed.

Lemma times_covered_sum (i : nat) (secs : list IterSection) :
  times_covered i secs = sum_list_with (λ sec, if in_section i sec then 1 else 0) secs.
Proof.
  unfold times_covered. induction secs as [|sec secs IH]; [done|].
  simpl. destruct (in_section i sec); simpl; lia.
Qed.

(** Whatever the weights, the sections the scan has written never
    overlap. *)
Lemma scan_loop_disjoint (weightFunc : nat → float) (elementCount : nat) (targetWeight : float)
    (threads n : nat) (st : scan) :
  scan_loop weightFunc elementCount targetWeight threads n = Some st →
  scan_disjoint n st.
Proof.
  revert st. induction n as [|n IH]; intros st Hst.
  - injection Hst as <-. unfold scan_disjoint. simpl.
    split; [done|]. split.
    { intros k sec _ Hk. by apply lookup_replicate in Hk as [-> _]. }
    assert (Hz : ∀ i, times_covered i (replicate threads {| Start := 0; End := 0 |}) = 0).
    { intros i. rewrite times_covered_sum.
      induction threads as [|m IHm]; [done|]. simpl. by rewrite IHm. }
    split; intros i; rewrite ?Hz; lia.
  - unfold scan_loop in Hst. rewrite for_range_S in Hst.
    fold (scan_loop weightFunc elementCount targetWeight threads n) in Hst.
    destruct (scan_loop weightFunc elementCount targetWeight threads n) as [st0|];
      [|done].
    destruct (IH st0 eq_refl) as (Hns & Hzero & Hone & Hfree).
    simpl in Hst. unfold scan_body in Hst.
    destruct ((n <? elementCount - 1) && _); simplify_eq/=.
    { unfold scan_disjoint. simpl. split; [lia|]. done. }
    destruct (Nat.ltb_spec (sectionIndex st0) (length (sections st0))) as [Hk|];
      simplify_eq/=.
    destruct (lookup_lt_is_Some_2 _ _ Hk) as [old Hold].
    pose proof (Hzero _ _ (le_n _) Hold) as ->.
    assert (Hins : ∀ i, times_covered i
                (<[sectionIndex st0 := {| Start := newStart st0; End := n |}]> (sections st0))
              = times_covered i (sections st0) +
                (if in_section i {| Start := newStart st0; End := n |} then 1 else 0)).
    { intros i. rewrite !times_covered_sum.
      pose proof (sum_list_with_insert (λ sec, if in_section i sec then 1 else 0)
                    _ _ {| Start := newStart st0; End := n |} _ Hold) as Hsum.
      unfold in_section at 2 in Hsum. simpl in Hsum. lia. }
    unfold scan_disjoint. simpl. split; [lia|]. split; [|split].
    + intros k sec Hle Hsec. rewrite list_lookup_insert_ne in Hsec by lia.
      apply (Hzero k); [lia|done].
    + intros i. rewrite Hins. unfold in_section. simpl.
      destruct (Nat.leb_spec (newStart st0) i); simpl.
      * rewrite Hfree by done. destruct (i <? n); lia.
      * specialize (Hone i). lia.
    + intros i Hi. rewrite Hins, Hfree by lia. unfold in_section. simpl.
      destruct (Nat.ltb_spec i n); [lia|]. by rewrite andb_false_r.
Qed.

(** ** Runs in which no job enqueues anything *)

Lemma calls_log (e : event) (s : KThreadPool) :
  calls (log e s) = calls s ++ match e with Called i => [i] | _ => [] end.
Proof. unfold calls. simpl. rewrite omap_app. by destruct e. Qed.

Section Confined.

Variable P : nat → Prop.

Lemma confined_set_thread k w s :
  confined P s → worker_confined P w → confined P (set_thread k w s).
Proof.
  intros (Hc & Hq & Ht & Ho) Hw. repeat split; try done.
  simpl. by apply Forall_insert.
Qed.

Lemma confined_log e s :
  confined P s → (∀ i, e = Called i → P i) → confined P (log e s).
Proof.
  intros (Hc & Hq & Ht & Ho) He. repeat split; try done.
  rewrite calls_log. apply Forall_app. split; [done|].
  destruct e; auto.
Qed.

Lemma confined_set_pending q s :
  confined P s → Forall (λ j, invokes_only P (Function j)) q →
  confined P (set_pending q s).
Proof. intros (Hc & Hq & Ht & Ho) H. by repeat split. Qed.

Lemma confined_set_owner c s :
  confined P s → owner_confined P c → confined P (set_owner c s).
Proof. intros (Hc & Hq & Ht & Ho) H. by repeat split. Qed.

Lemma confined_set_active a s : confined P s → confined P (set_active a s).
Proof. intros (Hc & Hq & Ht & Ho). by repeat split. Qed.

Lemma confined_set_destroying b s : confined P s → confined P (set_destroying b s).
Proof. intros (Hc & Hq & Ht & Ho). by repeat split. Qed.

Lemma confined_worker k w s :
  confined P s → Threads s !! k = Some w → worker_confined P w.
Proof. intros (_ & _ & Ht & _) Hk. by eapply Forall_lookup_1. Qed.

Lemma step_confined t s s' : step t s = Some s' → confined P s → confined P s'.
Proof.
  intros H Hs. pose proof Hs as (Hc & Hq & Ht & Ho).
  step_inv H;
    unfold owner_confined in Ho;
    try match goal with
        | Hp : PendingJobs s = _ ++ [_] |- _ =>
            rewrite Hp in Hq; apply Forall_app in Hq as [Hq1 Hq2];
            apply Forall_singleton in Hq2
        end;
    try (pose proof (confined_worker _ _ _ Hs Hw) as Hk; simpl in Hk);
    unfold invokes_only in *;
    repeat match goal with
           | HF : Forall _ (_ :: _) |- _ => inversion HF; clear HF; subst
           end;
    try done;
    repeat match goal with
           | |- confined _ (set_thread _ _ _) => apply confined_set_thread
           | |- confined _ (set_owner _ _) => apply confined_set_owner
           | |- confined _ (set_pending _ _) => apply confined_set_pending
           | |- confined _ (push_job _ _) => apply confined_set_pending
           | |- confined _ (set_active _ _) => apply confined_set_active
           | |- confined _ (set_destroying _ _) => apply confined_set_destroying
           | |- confined _ (log _ _) => apply confined_log
           | |- confined _ (if ?b then _ else _) => destruct b
           | |- Forall _ (_ ++ _) => apply Forall_app; split
           | |- Forall _ [_] => apply Forall_singleton
           | |- Forall _ (_ :: _) => apply Forall_cons; split
           end;
    simpl in *; try done.
  - by constructor.
  - by intros ? [= <-].
Qed.

Lemma run_confined sched s s' : run sched s = Some s' → confined P s → confined P s'.
Proof.
  revert s. induction sched as [|t sched IH]; intros s H Hs; simplify_eq/=; [done|].
  destruct (step t s) as [s1|] eqn:Hstep; simplify_eq/=.
  eauto using step_confined.
Qed.

End Confined.

(** ** The destroy flag and the end of the workers (C8) *)

Lemma run_preserves (I : KThreadPool → Prop) :
  (∀ t s s', step t s = Some s' → I s → I s') →
  ∀ sched s s', run sched s = Some s' → I s → I s'.
Proof.
  intros Hstep sched. induction sched as [|t sched IH]; intros s s' H Hs; simplify_eq/=.
  - done.
  - destruct (step t s) as [s1|] eqn:Hs1; simplify_eq/=. eauto.
Qed.

Lemma step_flag_monotonic t s s' :
  step t s = Some s' → bDestroyingPool s = true → bDestroyingPool s' = true.
Proof. intros H Hf. step_inv H; simpl; done. Qed.

Lemma step_threads_length t s s' :
  step t s = Some s' → length (Threads s') = length (Threads s).
Proof. intros H. step_inv H; simpl; rewrite ?length_insert; done. Qed.

(** A worker's control state changes only when that worker moves. *)
Lemma step_other_thread t s s' k :
  step t s = Some s' → t ≠ Worker k → Threads s' !! k = Threads s !! k.
Proof.
  intros H Hne. step_inv H; simpl; try done;
    rewrite list_lookup_insert_ne; congruence.
Qed.

Lemma step_worker_terminates t s s' k w :
  step t s = Some s' →
  Threads s !! k = Some w → w ≠ Terminated →
  Threads s' !! k = Some Terminated →
  t = Worker k ∧ w = CheckDestroy ∧ bDestroyingPool s = true.
Proof.
  intros H Hk Hw Hk'.
  destruct (decide (t = Worker k)) as [->|Hne].
  - simpl in H. rewrite Hk in H. simpl in H.
    assert (Hlen : k < length (Threads s)) by (by eapply lookup_lt_Some).
    destruct w; simpl in H; try done.
    + destruct (TakeNewJob_cases s) as [[Hq Ht]|(q & j & Hq & Ht)];
        rewrite Ht in H; simplify_eq/=;
        by rewrite list_lookup_insert_eq in Hk' by done.
    + repeat case_match; simplify_eq/=;
        by rewrite list_lookup_insert_eq in Hk' by done.
    + simplify_eq/=. by rewrite list_lookup_insert_eq in Hk' by done.
    + destruct (bDestroyingPool s) eqn:Hf; simplify_eq/=; [done|].
      by rewrite list_lookup_insert_eq in Hk' by done.
  - rewrite (step_other_thread _ _ _ _ H Hne) in Hk'. congruence.
Qed.

Lemma step_worker_finds_no_job t s s' k w :
  step t s = Some s' →
  Threads s !! k = Some w → w ≠ CheckDestroy →
  Threads s' !! k = Some CheckDestroy →
  t = Worker k ∧ w = Polling ∧ PendingJobs s = [].
Proof.
  intros H Hk Hw Hk'.
  destruct (decide (t = Worker k)) as [->|Hne].
  - simpl in H. rewrite Hk in H. simpl in H.
    assert (Hlen : k < length (Threads s)) by (by eapply lookup_lt_Some).
    destruct w; simpl in H; try done.
    + destruct (TakeNewJob_cases s) as [[Hq Ht]|(q & j & Hq & Ht)];
        rewrite Ht in H; simplify_eq/=; [done|].
      by rewrite list_lookup_insert_eq in Hk' by done.
    + repeat case_match; simplify_eq/=;
        by rewrite list_lookup_insert_eq in Hk' by done.
    + simplify_eq/=. by rewrite list_lookup_insert_eq in Hk' by done.
  - rewrite (step_other_thread _ _ _ _ H Hne) in Hk'. congruence.
Qed.

Lemma joined_inv_worker s s' k w0 w :
  Threads s !! k = Some w0 → w0 ≠ Terminated →
  owner s' = owner s → bDestroyingPool s' = bDestroyingPool s →
  Threads s' = <[k:=w]> (Threads s) →
  joined_inv s → joined_inv s'.
Proof.
  intros Hk Hw Ho Hf Ht. unfold joined_inv. rewrite Ho, Hf, Ht.
  destruct (owner s); try done.
  - intros [? Hj]. split; [done|]. intros i Hi.
    destruct (decide (k = i)) as [->|Hne].
    + rewrite (Hj i Hi) in Hk. congruence.
    + rewrite list_lookup_insert_ne by done. auto.
  - intros [? Hall]. exfalso.
    pose proof (Forall_lookup_1 _ _ _ _ Hall Hk). done.
Qed.

Lemma step_joined t s s' : step t s = Some s' → joined_inv s → joined_inv s'.
Proof.
  intros H Hs.
  destruct t as [|k].
  - unfold joined_inv in *. simpl in H. unfold owner_step in H.
    destruct (owner s) as [[|[] prog]|prog|j|] eqn:Ho; simplify_eq/=; try done.
    + destruct (0 <? length (PendingJobs s)); simplify_eq/=; by rewrite ?Ho.
    + split; [done|]. intros i Hi. lia.
    + destruct (0 <? ActiveJobCount s)%Z; by simplify_eq/=.
    + destruct Hs as [Hf Hj].
      destruct (Nat.ltb_spec j (length (Threads s))) as [Hlt|Hge].
      * destruct (Threads s !! j) as [[]|] eqn:Hjth; simplify_eq/=.
        split; [done|]. intros i Hi.
        destruct (decide (i = j)) as [->|]; [done|]. apply Hj. lia.
      * simplify_eq/=. split; [done|].
        apply Forall_lookup_2. intros i w Hi.
        pose proof (lookup_lt_Some _ _ _ Hi).
        rewrite Hj in Hi by lia. congruence.
  - simpl in H. destruct (Threads s !! k) as [w0|] eqn:Hk; simplify_eq/=.
    destruct w0; simpl in H; try done.
    + destruct (TakeNewJob_cases s) as [[Hq Ht]|(q & j & Hq & Ht)];
        rewrite Ht in H; simplify_eq/=;
        by eapply (joined_inv_worker s _ k Polling).
    + repeat case_match; simplify_eq/=;
        by eapply (joined_inv_worker s _ k (Executing _ _)).
    + simplify_eq/=. by eapply (joined_inv_worker s _ k Finishing).
    + case_match; simplify_eq/=;
        by eapply (joined_inv_worker s _ k CheckDestroy).
Qed.

Lemma KThreadPool_new_joined h count prog : joined_inv (KThreadPool_new h count prog).
Proof. done. Qed.

(** ** WaitForFinish (C7) *)

Lemma busy_count_le (l : list worker) : busy_count l ≤ length l.
Proof.
  unfold busy_count. induction l as [|w l IH]; simpl; [done|].
  destruct (is_busy w); lia.
Qed.

Lemma busy_count_0 (l : list worker) :
  busy_count l = 0 → Forall (λ w, is_busy w = false) l.
Proof.
  unfold busy_count. induction l as [|w l IH]; simpl; intros H; [done|].
  destruct (is_busy w) eqn:Hw; [lia|]. constructor; [done|]. apply IH. lia.
Qed.

Lemma busy_count_insert (l : list worker) (k : nat) (w w0 : worker) :
  l !! k = Some w0 →
  busy_count (<[k:=w]> l) + (if is_busy w0 then 1 else 0) =
  busy_count l + (if is_busy w then 1 else 0).
Proof. apply sum_list_with_insert. Qed.

Lemma step_active t s s' : step t s = Some s' → active_inv s → active_inv s'.
Proof.
  intros H [Ha Hn]. unfold active_inv.
  rewrite (step_threads_length _ _ _ H). split; [|done].
  step_inv H; simpl; try done;
    match goal with
    | Hw : Threads s !! ?k = Some ?w0 |- context [<[?k:=?w]> _] =>
        pose proof (busy_count_insert (Threads s) k w w0 Hw) as Hb;
        pose proof (busy_count_le (<[k:=w]> (Threads s))) as Hle;
        rewrite length_insert in Hle; simpl in Hb
    end;
    rewrite ?Ha; unfold Int.to_size_t, Int.INT_MAX in *;
    rewrite ?Z.mod_small; lia.
Qed.

Lemma KThreadPool_new_active h count prog :
  (thread_count h count ≤ Int.INT_MAX)%Z →
  active_inv (KThreadPool_new h count prog).
Proof.
  intros Hc. unfold active_inv. simpl. rewrite length_replicate.
  split.
  - generalize (Z.to_nat (thread_count h count)). intros n.
    induction n as [|n IH]; [done|]. simpl. by rewrite <- IH.
  - pose proof (thread_count_pos h count). lia.
Qed.

Lemma step_wait t s s' :
  step t s = Some s' → confined (λ _, True) s → wait_inv s → wait_inv s'.
Proof.
  intros H Hc Hs. unfold wait_inv in *.
  step_inv H; simpl; try done; try (intros ? [= <-]; eauto; fail);
    try (intros prog' Ho; specialize (Hs _ Ho); try done).
  - intros prog' Ho. congruence.
  - intros ? [= <-]. by destruct (PendingJobs s).
  - rewrite Hs in *. by destruct x.
  - pose proof (confined_worker _ _ _ _ Hc Hw) as Hk. simpl in Hk.
    by inversion Hk.
Qed.

Lemma KThreadPool_new_confined P h count prog :
  Forall (op_confined P) prog → confined P (KThreadPool_new h count prog).
Proof.
  intros Hp. repeat split; try done. simpl. by apply Forall_replicate.
Qed.

(** Where C7 holds: as long as no job enqueues further jobs,
    [WaitForFinish] returns only in an idle state: the pending list is
    empty, the counter of active jobs is zero, and no worker is inside a
    job. *)
Lemma WaitForFinish_returns_idle (h : Host) (count : Z) (prog : list op) :
  (thread_count h count ≤ Int.INT_MAX)%Z →
  Forall (op_confined (λ _, True)) prog →
  wait_spec (KThreadPool_new h count prog).
Proof.
  intros Hc Hp sched s s' Hrun (prog' & Ho & Hstep & Ho').
  assert (Hinv : confined (λ _, True) s ∧ wait_inv s ∧ active_inv s).
  { eapply (run_preserves (λ s, confined (λ _, True) s ∧ wait_inv s ∧ active_inv s));
      [|exact Hrun|].
    - intros t s1 s2 H12 (H1 & H2 & H3).
      split; [by eapply step_confined|].
      split; [by eapply step_wait|by eapply step_active].
    - split; [by apply KThreadPool_new_confined|].
      split; [done|]. by apply KThreadPool_new_active. }
  destruct Hinv as (_ & Hw & Ha & _).
  simpl in Hstep. unfold owner_step in Hstep. rewrite Ho in Hstep.
  destruct (Z.ltb_spec 0 (ActiveJobCount s)) as [Hlt|Hge]; simplify_eq/=.
  { apply (f_equal length) in Ho'. simpl in Ho'. lia. }
  unfold idle. simpl. split; [by eapply Hw|].
  split; [lia|]. apply busy_count_0. lia.
Qed.

(** C7 fails when a job enqueues a job. With one worker: the job is
    claimed; the owning thread, in [WaitForFinish], reads an empty
    pending list; the job enqueues its own job and finishes, and the
    counter goes back to zero; the owning thread reads a counter of zero
    and [WaitForFinish] returns, with a job queued. *)
Theorem wait_spec_nested_submission_fails :
  ∃ s s',
    run [Owner; Worker 0; Owner; Worker 0; Worker 0; Worker 0]
        (KThreadPool_new host8 1 nested_submission) = Some s ∧
    WaitForFinish_returns s s' ∧
    owner s' = Running [] ∧
    PendingJobs s' = [ThreadJob []] ∧
    GetPendingJobCount s' = 1 ∧
    ¬ idle s' ∧
    ¬ wait_spec (KThreadPool_new host8 1 nested_submission).
Proof.
  eexists _, _. split; [vm_compute; reflexivity|].
  split.
  { eexists. split; [reflexivity|]. split; [vm_compute; reflexivity|reflexivity]. }
  split; [reflexivity|]. split; [reflexivity|]. split; [reflexivity|].
  split.
  - intros (Hq & _). discriminate Hq.
  - intros H.
    edestruct (H [Owner; Worker 0; Owner; Worker 0; Worker 0; Worker 0]) as (Hq & _).
    + vm_compute. reflexivity.
    + eexists. split; [reflexivity|]. split; [vm_compute; reflexivity|reflexivity].
    + vm_compute in Hq. discriminate Hq.
Qed.

(** ** Every iteration call can return *)

Lemma step_worker_owner t s s' :
  step t s = Some s' → t ≠ Owner →
  owner s' = owner s ∧ bDestroyingPool s' = bDestroyingPool s.
Proof. intros H Hne. step_inv H; simpl; done. Qed.

Lemma step_returning t s s' : step t s = Some s' → returning s → returning s'.
Proof.
  intros H Hr. destruct t as [|k].
  - unfold returning in *. simpl in H. unfold owner_step in H.
    destruct (owner s) as [[|o prog]|prog|j|] eqn:Ho; simplify_eq/=; try done.
    + destruct Hr as ([|o' pushes] & Heq & Hp); simplify_eq/=.
      * done.
      * inversion Hp; subst. destruct o'; try done; simplify_eq/=; eauto.
    + by destruct (j <? length (Threads s)); repeat case_match; simplify_eq/=.
  - destruct (step_worker_owner _ _ _ H) as [Ho Hf]; [done|].
    unfold returning in *. by rewrite Ho, Hf.
Qed.

Lemma worker_step_decreases (s : KThreadPool) (k : nat) (w : worker) :
  bDestroyingPool s = true →
  confined (λ _, True) s →
  Threads s !! k = Some w → w ≠ Terminated →
  ∃ s', step (Worker k) s = Some s' ∧ work_left s' < work_left s ∧
        owner s' = owner s ∧ bDestroyingPool s' = true.
Proof.
  intros Hf Hc Hk Hw. simpl. rewrite Hk. simpl.
  pose proof (confined_worker _ _ _ _ Hc Hk) as Hwc.
  unfold work_left.
  destruct w as [|j [|[i|] rest]| | |]; simpl in *; try done.
  - destruct (TakeNewJob_cases s) as [[Hq Ht]|(q & j & Hq & Ht)]; rewrite Ht.
    + eexists. split; [done|]. simpl.
      pose proof (sum_list_with_insert worker_stage _ k CheckDestroy _ Hk).
      simpl in *. split; [lia|done].
    + eexists. split; [done|]. simpl.
      pose proof (sum_list_with_insert worker_stage _ k
                    (Executing j (Function j)) _ Hk).
      rewrite Hq, sum_list_with_app. simpl in *. split; [lia|done].
  - eexists. split; [done|].
    pose proof (sum_list_with_insert worker_stage _ k Finishing _ Hk).
    destruct (bDeleteOnFinish j); simpl in *; (split; [lia|done]).
  - eexists. split; [done|]. simpl.
    pose proof (sum_list_with_insert worker_stage _ k (Executing j rest) _ Hk).
    simpl in *. split; [lia|done].
  - by inversion Hwc.
  - eexists. split; [done|]. simpl.
    pose proof (sum_list_with_insert worker_stage _ k Polling _ Hk).
    simpl in *. split; [lia|done].
  - rewrite Hf. eexists. split; [done|]. simpl.
    pose proof (sum_list_with_insert worker_stage _ k Terminated _ Hk).
    simpl in *. split; [lia|done].
Qed.

(** Once the flag is set, the workers can all be run to their end. *)
Lemma workers_finish (n : nat) (s : KThreadPool) :
  work_left s ≤ n →
  bDestroyingPool s = true →
  confined (λ _, True) s →
  ∃ sched s', run sched s = Some s' ∧
              Forall (λ w, is_terminated w = true) (Threads s') ∧
              owner s' = owner s.
Proof.
  revert s. induction n as [|n IH]; intros s Hn Hf Hc.
  - exists [], s. split; [done|]. split; [|done].
    apply Forall_lookup_2. intros k w Hk.
    destruct w; try done;
      destruct (worker_step_decreases s k _ Hf Hc Hk ltac:(done)) as (? & _ & ? & _); lia.
  - destruct (decide (Forall (λ w, is_terminated w = true) (Threads s))) as [Hall|Hnot].
    + by exists [], s.
    + apply not_Forall_Exists in Hnot; [|apply _].
      apply Exists_exists in Hnot as (w & Hin & Hw).
      apply list_elem_of_lookup in Hin as [k Hk].
      destruct (worker_step_decreases s k w Hf Hc Hk) as (s1 & Hs1 & Hlt & Ho & Hf1).
      { intros ->. by apply Hw. }
      destruct (IH s1) as (sched & s' & Hrun & Hall & Ho').
      * lia.
      * done.
      * by eapply step_confined.
      * exists (Worker k :: sched), s'.
        split; [|split; [done|congruence]].
        change (run (Worker k :: sched) s) with (step (Worker k) s ≫= run sched).
        by rewrite Hs1.
Qed.

Lemma owner_reaches_join (pushes : list op) (s : KThreadPool) :
  owner s = Running (pushes ++ [Destroy]) →
  Forall is_push pushes →
  ∃ s', run (replicate (length pushes + 1) Owner) s = Some s' ∧
        owner s' = Joining 0 ∧ bDestroyingPool s' = true.
Proof.
  revert s. induction pushes as [|o pushes IH]; intros s Ho Hp.
  - simpl. unfold owner_step. rewrite Ho. simpl. by eexists.
  - inversion Hp as [|? ? Hpo Hps]; subst.
    change (run (replicate (length (o :: pushes) + 1) Owner) s)
      with (owner_step s ≫= run (replicate (length pushes + 1) Owner)).
    unfold owner_step at 1. rewrite Ho. simpl.
    destruct o; try done; simpl; by apply IH.
Qed.

Lemma owner_joins (d : nat) (s : KThreadPool) (k : nat) :
  length (Threads s) - k = d →
  owner s = Joining k →
  Forall (λ w, is_terminated w = true) (Threads s) →
  ∃ s', run (replicate (d + 1) Owner) s = Some s' ∧ owner s' = Destroyed.
Proof.
  revert s k. induction d as [|d IH]; intros s k Hd Ho Hall.
  - simpl. unfold owner_step. rewrite Ho.
    destruct (Nat.ltb_spec k (length (Threads s))); [lia|]. by eexists.
  - change (run (replicate (S d + 1) Owner) s)
      with (owner_step s ≫= run (replicate (d + 1) Owner)).
    unfold owner_step at 1. rewrite Ho.
    destruct (Nat.ltb_spec k (length (Threads s))) as [Hlt|]; [|lia].
    destruct (lookup_lt_is_Some_2 _ _ Hlt) as [w Hk]. rewrite Hk.
    pose proof (Forall_lookup_1 _ _ _ _ Hall Hk) as Hw.
    destruct w; try done. simpl.
    apply (IH _ (S k)); simpl; [lia|done|done].
Qed.

(** From whatever state an iteration call has reached, the threads can
    be scheduled so that the call returns: the owning thread hands over
    what it still holds and sets the flag, every worker runs until it
    finds the pending list empty and the flag set, and the destructor
    joins them all. *)
Lemma iteration_can_return (s : KThreadPool) :
  returning s → confined (λ _, True) s →
  ∃ sched s', run sched s = Some s' ∧ owner s' = Destroyed.
Proof.
  intros Hr Hc.
  assert (Hjoin : ∀ s1 k, owner s1 = Joining k → bDestroyingPool s1 = true →
            confined (λ _, True) s1 →
            ∃ sched s', run sched s1 = Some s' ∧ owner s' = Destroyed).
  { intros s1 k Ho Hf Hc1.
    destruct (workers_finish _ s1 (le_n _) Hf Hc1) as (sched & s2 & Hrun & Hall & Ho2).
    destruct (owner_joins _ s2 k eq_refl ltac:(congruence) Hall) as (s3 & Hrun3 & Ho3).
    eexists (sched ++ _), s3. split; [|done].
    rewrite run_app, Hrun. exact Hrun3. }
  unfold returning in Hr. destruct (owner s) as [prog|prog|k|] eqn:Ho; try done.
  - destruct Hr as (pushes & -> & Hp).
    destruct (owner_reaches_join pushes s Ho Hp) as (s1 & Hrun1 & Ho1 & Hf1).
    destruct (Hjoin s1 0 Ho1 Hf1) as (sched & s' & Hrun & Ho').
    { by eapply run_confined. }
    eexists (_ ++ sched), s'. split; [|done].
    by rewrite run_app, Hrun1.
  - by eapply Hjoin.
  - by exists [], s.
Qed.

(** ** The destructor joins every worker (C8) *)

Lemma body_cost_cons (a : action) (rest : list action) :
  body_cost (a :: rest) = action_cost a + body_cost rest.
Proof. done. Qed.

(** Once the flag is set, every step of a worker that has not returned
    uses up one unit of what is left to run, whatever its job does. *)
Lemma worker_step_effort (s : KThreadPool) (k : nat) (w : worker) :
  bDestroyingPool s = true →
  Threads s !! k = Some w → w ≠ Terminated →
  ∃ s', step (Worker k) s = Some s' ∧ effort_left s' < effort_left s ∧
        owner s' = owner s ∧ bDestroyingPool s' = true.
Proof.
  intros Hf Hk Hw. simpl. rewrite Hk. simpl. unfold effort_left.
  destruct w as [|j [|[i|d body] rest]| | |]; simpl in *; try done.
  - destruct (TakeNewJob_cases s) as [[Hq Ht]|(q & j & Hq & Ht)]; rewrite Ht.
    + eexists. split; [done|]. simpl.
      pose proof (sum_list_with_insert worker_effort _ k CheckDestroy _ Hk).
      simpl in *. split; [lia|done].
    + eexists. split; [done|]. simpl.
      pose proof (sum_list_with_insert worker_effort _ k
                    (Executing j (Function j)) _ Hk).
      rewrite Hq, sum_list_with_app. simpl in *. split; [lia|done].
  - eexists. split; [done|].
    pose proof (sum_list_with_insert worker_effort _ k Finishing _ Hk).
    destruct (bDeleteOnFinish j); simpl in *; (split; [lia|done]).
  - eexists. split; [done|]. simpl.
    pose proof (sum_list_with_insert worker_effort _ k (Executing j rest) _ Hk) as Hins.
    cbn [worker_effort] in Hins. rewrite body_cost_cons in Hins.
    cbn [action_cost] in Hins. split; [lia|done].
  - eexists. split; [done|]. simpl.
    pose proof (sum_list_with_insert worker_effort _ k (Executing j rest) _ Hk) as Hins.
    cbn [worker_effort] in Hins. rewrite body_cost_cons in Hins.
    cbn [action_cost] in Hins. rewrite sum_list_with_app. simpl.
    unfold body_cost in *. split; [lia|done].
  - eexists. split; [done|]. simpl.
    pose proof (sum_list_with_insert worker_effort _ k Polling _ Hk).
    simpl in *. split; [lia|done].
  - rewrite Hf. eexists. split; [done|]. simpl.
    pose proof (sum_list_with_insert worker_effort _ k Terminated _ Hk).
    simpl in *. split; [lia|done].
Qed.

(** Once the destructor has begun, every step of any thread uses up
    what is left to run or one of the joins still to come. *)
Lemma step_effort t s s' :
  step t s = Some s' → ¬ alive s → bDestroyingPool s = true →
  effort_left s' + joins_left s' < effort_left s + joins_left s.
Proof.
  intros H Hal Hf. destruct t as [|k].
  - simpl in H. unfold owner_step in H. unfold alive, joins_left, effort_left in *.
    destruct (owner s) as [prog|prog|j|] eqn:Ho; try done.
    destruct (Nat.ltb_spec j (length (Threads s))) as [Hlt|Hge].
    + destruct (Threads s !! j) as [[]|]; simplify_eq/=. lia.
    + simplify_eq/=. lia.
  - destruct (Threads s !! k) as [w|] eqn:Hk; [|by (simpl in H; rewrite Hk in H)].
    destruct (worker_step_effort s k w Hf Hk) as (s1 & Hs1 & Hlt & Ho & Hf1).
    { intros ->. simpl in H. by rewrite Hk in H. }
    rewrite H in Hs1. injection Hs1 as <-.
    unfold joins_left. rewrite Ho, (step_threads_length _ _ _ H). lia.
Qed.

(** Once the flag is set, the workers can all be run until they have
    returned, whatever their jobs enqueue on the way. *)
Lemma workers_return (n : nat) (s : KThreadPool) :
  effort_left s ≤ n →
  bDestroyingPool s = true →
  ∃ sched s', run sched s = Some s' ∧
              Forall (λ w, is_terminated w = true) (Threads s') ∧
              owner s' = owner s.
Proof.
  revert s. induction n as [|n IH]; intros s Hn Hf.
  - exists [], s. split; [done|]. split; [|done].
    apply Forall_lookup_2. intros k w Hk.
    destruct w; try done;
      destruct (worker_step_effort s k _ Hf Hk ltac:(done)) as (? & _ & ? & _); lia.
  - destruct (decide (Forall (λ w, is_terminated w = true) (Threads s))) as [Hall|Hnot].
    + by exists [], s.
    + apply not_Forall_Exists in Hnot; [|apply _].
      apply Exists_exists in Hnot as (w & Hin & Hw).
      apply list_elem_of_lookup in Hin as [k Hk].
      destruct (worker_step_effort s k w Hf Hk) as (s1 & Hs1 & Hlt & Ho & Hf1).
      { intros ->. by apply Hw. }
      destruct (IH s1) as (sched & s' & Hrun & Hall & Ho'); [lia|done|].
      exists (Worker k :: sched), s'.
      split; [|split; [done|congruence]].
      change (run (Worker k :: sched) s) with (step (Worker k) s ≫= run sched).
      by rewrite Hs1.
Qed.

(** A destructor that has begun can always complete: the workers are
    run until they have returned, and the joins follow. *)
Lemma destructor_completes (s : KThreadPool) :
  joined_inv s → ¬ alive s →
  ∃ sched s', run sched s = Some s' ∧ owner s' = Destroyed ∧
              Forall (λ w, w = Terminated) (Threads s').
Proof.
  intros Hj Hal.
  assert (Hend : ∀ sched s', run sched s = Some s' → owner s' = Destroyed →
            Forall (λ w, w = Terminated) (Threads s')).
  { intros sched s' Hrun Ho.
    pose proof (run_preserves joined_inv step_joined sched s s' Hrun Hj) as Hj'.
    unfold joined_inv in Hj'. rewrite Ho in Hj'. apply Hj'. }
  unfold alive in Hal. destruct (owner s) as [| |k|] eqn:Ho; try done.
  - assert (Hf : bDestroyingPool s = true).
    { unfold joined_inv in Hj. rewrite Ho in Hj. apply Hj. }
    destruct (workers_return _ s (le_n _) Hf) as (sched & s2 & Hrun & Hall & Ho2).
    destruct (owner_joins _ s2 k eq_refl ltac:(congruence) Hall) as (s3 & Hrun3 & Ho3).
    assert (Hrun' : run (sched ++ replicate (length (Threads s2) - k + 1) Owner) s = Some s3).
    { rewrite run_app, Hrun. exact Hrun3. }
    eexists _, s3. split; [exact Hrun'|]. split; [done|]. by eapply Hend.
  - exists [], s. split; [done|]. split; [done|]. by apply (Hend []).
Qed.

(** C8: in every state a pool reaches, a step never resets the destroy
    flag; a worker that terminates in the step is the thread that moved,
    it was at the flag test that follows a dequeue attempt, and the flag
    was set; a worker arrives at that flag test only by a dequeue attempt
    that found the pending list empty. The destructor sets the flag in
    its first step and joins the workers next, one step of the owning
    thread per worker, taken only once that worker has returned, and the
    pool is destroyed by the step that follows the last join: in a
    destroyed pool the flag is set and every worker has terminated. The
    destructor does complete: once it has begun, every step of any
    thread, whatever the jobs do, uses up what is left to run or one of
    the joins to come; a state in which no thread can move is a destroyed
    pool; and the threads can always be scheduled so that every worker
    is joined and the pool destroyed. *)
Theorem destroy_flag_discipline (h : Host) (count : Z) (prog : list op)
    (sched : list thread) (s : KThreadPool) (t : thread) (s' : KThreadPool) :
  run sched (KThreadPool_new h count prog) = Some s →
  step t s = Some s' →
  (bDestroyingPool s = true → bDestroyingPool s' = true) ∧
  (∀ k w, Threads s !! k = Some w → w ≠ Terminated →
          Threads s' !! k = Some Terminated →
          t = Worker k ∧ w = CheckDestroy ∧ bDestroyingPool s = true) ∧
  (∀ k w, Threads s !! k = Some w → w ≠ CheckDestroy →
          Threads s' !! k = Some CheckDestroy →
          t = Worker k ∧ w = Polling ∧ PendingJobs s = []) ∧
  (∀ rest, owner s = Running (Destroy :: rest) → t = Owner →
           bDestroyingPool s' = true ∧ owner s' = Joining 0) ∧
  (∀ k, owner s = Joining k → t = Owner →
        (Threads s !! k = Some Terminated ∧ owner s' = Joining (S k)) ∨
        (length (Threads s) ≤ k ∧ owner s' = Destroyed)) ∧
  (∀ k, owner s' = Joining k →
        bDestroyingPool s' = true ∧ ∀ i, i < k → Threads s' !! i = Some Terminated) ∧
  (owner s' = Destroyed →
     bDestroyingPool s' = true ∧ Forall (λ w, w = Terminated) (Threads s')) ∧
  (¬ alive s →
     effort_left s' + joins_left s' < effort_left s + joins_left s) ∧
  (¬ alive s' → (∀ t', step t' s' = None) → owner s' = Destroyed) ∧
  (¬ alive s' →
     ∃ sched' s'', run sched' s' = Some s'' ∧ owner s'' = Destroyed ∧
                   Forall (λ w, w = Terminated) (Threads s'')).
Proof.
  intros Hrun Hstep.
  assert (Hj0 : joined_inv s).
  { eapply (run_preserves joined_inv); [apply step_joined|done|].
    apply KThreadPool_new_joined. }
  assert (Hj : joined_inv s') by (by eapply step_joined).
  assert (Hflag : ∀ s1, joined_inv s1 → ¬ alive s1 → bDestroyingPool s1 = true).
  { intros s1 H1 Hal. unfold joined_inv, alive in *.
    destruct (owner s1); try done; apply H1. }
  split; [by apply (step_flag_monotonic t)|].
  split; [intros k w; by apply step_worker_terminates|].
  split; [intros k w; by apply step_worker_finds_no_job|].
  split.
  { intros rest Ho ->. simpl in Hstep. unfold owner_step in Hstep.
    rewrite Ho in Hstep. by simplify_eq/=. }
  split.
  { intros k Ho ->. simpl in Hstep. unfold owner_step in Hstep. rewrite Ho in Hstep.
    destruct (Nat.ltb_spec k (length (Threads s))) as [Hlt|Hge].
    - destruct (Threads s !! k) as [[]|]; simplify_eq/=. by left.
    - simplify_eq/=. by right. }
  split.
  { intros k Ho. unfold joined_inv in Hj. by rewrite Ho in Hj. }
  split.
  { intros Ho. unfold joined_inv in Hj. by rewrite Ho in Hj. }
  split.
  { intros Hal. eapply step_effort; [done|done|]. by apply Hflag. }
  split.
  { intros Hal Hstuck. pose proof (Hflag s' Hj Hal) as Hf.
    unfold alive in Hal. destruct (owner s') as [| |k|] eqn:Ho; try done.
    exfalso. pose proof (Hstuck Owner) as HO. simpl in HO. unfold owner_step in HO.
    rewrite Ho in HO.
    destruct (Nat.ltb_spec k (length (Threads s'))) as [Hlt|]; [|done].
    destruct (lookup_lt_is_Some_2 _ _ Hlt) as [w Hk]. rewrite Hk in HO.
    destruct (worker_step_effort s' k w Hf Hk) as (s1 & Hs1 & _).
    { intros ->. done. }
    by rewrite Hstuck in Hs1. }
  intros Hal. by apply destructor_completes.
Qed.

Lemma destroy_flag_discipline_witness :
  ((bDestroyingPool (KThreadPool_new host8 1 [Destroy]) = true → bDestroyingPool destructing_state = true) ∧
    (∀ k w, Threads (KThreadPool_new host8 1 [Destroy]) !! k = Some w → w ≠ Terminated →
            Threads destructing_state !! k = Some Terminated →
            Owner = Worker k ∧ w = CheckDestroy ∧ bDestroyingPool (KThreadPool_new host8 1 [Destroy]) = true) ∧
    (∀ k w, Threads (KThreadPool_new host8 1 [Destroy]) !! k = Some w → w ≠ CheckDestroy →
            Threads destructing_state !! k = Some CheckDestroy →
            Owner = Worker k ∧ w = Polling ∧ PendingJobs (KThreadPool_new host8 1 [Destroy]) = []) ∧
    (∀ rest, owner (KThreadPool_new host8 1 [Destroy]) = Running (Destroy :: rest) → Owner = Owner →
             bDestroyingPool destructing_state = true ∧ owner destructing_state = Joining 0) ∧
    (∀ k, owner (KThreadPool_new host8 1 [Destroy]) = Joining k → Owner = Owner →
          (Threads (KThreadPool_new host8 1 [Destroy]) !! k = Some Terminated ∧ owner destructing_state = Joining (S k)) ∨
          (length (Threads (KThreadPool_new host8 1 [Destroy])) ≤ k ∧ owner destructing_state = Destroyed)) ∧
    (∀ k, owner destructing_state = Joining k →
          bDestroyingPool destructing_state = true ∧ ∀ i, i < k → Threads destructing_state !! i = Some Terminated) ∧
    (owner destructing_state = Destroyed →
       bDestroyingPool destructing_state = true ∧ Forall (λ w, w = Terminated) (Threads destructing_state)) ∧
    (¬ alive (KThreadPool_new host8 1 [Destroy]) →
       effort_left destructing_state + joins_left destructing_state < effort_left (KThreadPool_new host8 1 [Destroy]) + joins_left (KThreadPool_new host8 1 [Destroy])) ∧
    (¬ alive destructing_state → (∀ t', step t' destructing_state = None) → owner destructing_state = Destroyed) ∧
    (¬ alive destructing_state →
       ∃ sched' s'', run sched' destructing_state = Some s'' ∧ owner s'' = Destroyed ∧
                     Forall (λ w, w = Terminated) (Threads s''))) ∧
  ((bDestroyingPool flag_test_state = true → bDestroyingPool terminated_state = true) ∧
    (∀ k w, Threads flag_test_state !! k = Some w → w ≠ Terminated →
            Threads terminated_state !! k = Some Terminated →
            Worker 0 = Worker k ∧ w = CheckDestroy ∧ bDestroyingPool flag_test_state = true) ∧
    (∀ k w, Threads flag_test_state !! k = Some w → w ≠ CheckDestroy →
            Threads terminated_state !! k = Some CheckDestroy →
            Worker 0 = Worker k ∧ w = Polling ∧ PendingJobs flag_test_state = []) ∧
    (∀ rest, owner flag_test_state = Running (Destroy :: rest) → Worker 0 = Owner →
             bDestroyingPool terminated_state = true ∧ owner terminated_state = Joining 0) ∧
    (∀ k, owner flag_test_state = Joining k → Worker 0 = Owner →
          (Threads flag_test_state !! k = Some Terminated ∧ owner terminated_state = Joining (S k)) ∨
          (length (Threads flag_test_state) ≤ k ∧ owner terminated_state = Destroyed)) ∧
    (∀ k, owner terminated_state = Joining k →
          bDestroyingPool terminated_state = true ∧ ∀ i, i < k → Threads terminated_state !! i = Some Terminated) ∧
    (owner terminated_state = Destroyed →
       bDestroyingPool terminated_state = true ∧ Forall (λ w, w = Terminated) (Threads terminated_state)) ∧
    (¬ alive flag_test_state →
       effort_left terminated_state + joins_left terminated_state < effort_left flag_test_state + joins_left flag_test_state) ∧
    (¬ alive terminated_state → (∀ t', step t' terminated_state = None) → owner terminated_state = Destroyed) ∧
    (¬ alive terminated_state →
       ∃ sched' s'', run sched' terminated_state = Some s'' ∧ owner s'' = Destroyed ∧
                     Forall (λ w, w = Terminated) (Threads s''))) ∧
  ((bDestroyingPool joined_state = true → bDestroyingPool destroyed_state = true) ∧
    (∀ k w, Threads joined_state !! k = Some w → w ≠ Terminated →
            Threads destroyed_state !! k = Some Terminated →
            Owner = Worker k ∧ w = CheckDestroy ∧ bDestroyingPool joined_state = true) ∧
    (∀ k w, Threads joined_state !! k = Some w → w ≠ CheckDestroy →
            Threads destroyed_state !! k = Some CheckDestroy →
            Owner = Worker k ∧ w = Polling ∧ PendingJobs joined_state = []) ∧
    (∀ rest, owner joined_state = Running (Destroy :: rest) → Owner = Owner →
             bDestroyingPool destroyed_state = true ∧ owner destroyed_state = Joining 0) ∧
    (∀ k, owner joined_state = Joining k → Owner = Owner →
          (Threads joined_state !! k = Some Terminated ∧ owner destroyed_state = Joining (S k)) ∨
          (length (Threads joined_state) ≤ k ∧ owner destroyed_state = Destroyed)) ∧
    (∀ k, owner destroyed_state = Joining k →
          bDestroyingPool destroyed_state = true ∧ ∀ i, i < k → Threads destroyed_state !! i = Some Terminated) ∧
    (owner destroyed_state = Destroyed →
       bDestroyingPool destroyed_state = true ∧ Forall (λ w, w = Terminated) (Threads destroyed_state)) ∧
    (¬ alive joined_state →
       effort_left destroyed_state + joins_left destroyed_state < effort_left joined_state + joins_left joined_state) ∧
    (¬ alive destroyed_state → (∀ t', step t' destroyed_state = None) → owner destroyed_state = Destroyed) ∧
    (¬ alive destroyed_state →
       ∃ sched' s'', run sched' destroyed_state = Some s'' ∧ owner s'' = Destroyed ∧
                     Forall (λ w, w = Terminated) (Threads s''))).
Proof.
  split; [|split].
  - apply (destroy_flag_discipline host8 1 [Destroy] []
             (KThreadPool_new host8 1 [Destroy]) Owner destructing_state); reflexivity.
  - apply (destroy_flag_discipline host8 1 [Destroy] [Owner; Worker 0]
             flag_test_state (Worker 0) terminated_state); reflexivity.
  - apply (destroy_flag_discipline host8 1 [Destroy] [Owner; Worker 0; Worker 0; Owner]
             joined_state Owner destroyed_state); reflexivity.
Defined.

(** ** What IterateWeighted hands to its pool *)

Lemma effective_workers_to_nat_pos h W L : 0 < Z.to_nat (effective_workers h W L).
Proof. pose proof (thread_count_pos h (clamp_poolSize h W L)). unfold effective_workers. lia. Qed.

(** Whenever the scan has stayed inside the vector, the sequential part
    of [IterateWeighted] has called [weightFunc] once per index in each
    of its two loops, has left as many sections as the pool has threads,
    and no section reaches the last index. *)
Lemma IterateWeighted_scan_facts (h : Host) (weightFunc : nat → float) (W : Z) (L : nat)
    (r : weighted) :
  IterateWeighted_scan h weightFunc W L = Some r →
  w_threads r = Z.to_nat (effective_workers h W (Z.of_nat L)) ∧
  length (w_sections r) = w_threads r ∧
  w_weighed r = seq 0 L ++ seq 0 L ∧
  Forall (λ sec, End sec ≤ L - 1) (w_sections r).
Proof.
  unfold IterateWeighted_scan.
  pose proof (find_total_calls weightFunc L) as Hcalls.
  destruct (find_total weightFunc L) as [total calls]. simpl in Hcalls.
  destruct (scan_sections _ _ _ _) as [st|] eqn:Hst; intros Hr; simplify_eq/=.
  destruct (scan_loop_inv _ _ _ _ _ _ (le_n _) Hst) as (Hlen & Hwd & Hend & _).
  by rewrite Hwd.
Qed.

(** When the pool has at least as many threads as the sequence has
    elements, the scan stays inside the vector whatever the weights
    are, also when they are negative, infinite or not numbers. *)
Lemma IterateWeighted_scan_defined (h : Host) (weightFunc : nat → float) (W : Z) (L : nat) :
  L ≤ Z.to_nat (effective_workers h W (Z.of_nat L)) →
  is_Some (IterateWeighted_scan h weightFunc W L).
Proof.
  intros Hth. unfold IterateWeighted_scan.
  destruct (find_total weightFunc L) as [total calls].
  destruct (scan_loop_defined weightFunc L
              (PrimFloat.div total
                 (size_to_double (Z.to_nat (effective_workers h W (Z.of_nat L)))))
              _ L Hth (le_n _)) as [st Hst].
  unfold scan_sections. rewrite Hst. by eexists.
Qed.

(** Whatever the weights, no index lies in two of the sections. *)
Lemma IterateWeighted_sections_disjoint (h : Host) (weightFunc : nat → float) (W : Z) (L : nat)
    (r : weighted) :
  IterateWeighted_scan h weightFunc W L = Some r →
  ∀ i, times_covered i (w_sections r) ≤ 1.
Proof.
  unfold IterateWeighted_scan. destruct (find_total weightFunc L) as [total calls].
  destruct (scan_sections _ _ _ _) as [st|] eqn:Hst; intros Hr; simplify_eq/=.
  by destruct (scan_loop_disjoint _ _ _ _ _ _ Hst) as (_ & _ & Hone & _).
Qed.

Lemma IterateWeighted_scan_empty (h : Host) (weightFunc : nat → float) (W : Z) :
  IterateWeighted_scan h weightFunc W 0 =
    Some {| w_threads := Z.to_nat (effective_workers h W 0);
            w_target := PrimFloat.div 0 (size_to_double (Z.to_nat (effective_workers h W 0)));
            w_sections := replicate (Z.to_nat (effective_workers h W 0))
                            {| Start := 0; End := 0 |};
            w_weighed := [] |}.
Proof. reflexivity. Qed.

Lemma iterSection_confined (P : nat → Prop) (start end_ : nat) :
  (∀ i, start ≤ i < end_ → P i) → invokes_only P (iterSection start end_).
Proof.
  intros H. unfold invokes_only, iterSection. apply Forall_map, Forall_forall.
  intros i Hi%list_elem_of_In%in_seq. apply H. lia.
Qed.

Lemma section_ops_confined (P : nat → Prop) (secs : list IterSection) :
  Forall (λ sec, ∀ i, Start sec ≤ i < End sec → P i) secs →
  Forall (op_confined P) (section_ops secs ++ [Destroy]).
Proof.
  intros H. apply Forall_app. split; [|by repeat constructor].
  unfold section_ops. apply Forall_map. eapply Forall_impl; [exact H|].
  intros sec Hsec. simpl. by apply iterSection_confined.
Qed.

Lemma section_ops_push (secs : list IterSection) : Forall is_push (section_ops secs).
Proof. unfold section_ops. apply Forall_map. by apply Forall_true. Qed.

Lemma submitted_section_ops (secs : list IterSection) :
  submitted (section_ops secs ++ [Destroy]) =
    map (λ sec, ThreadJob (iterSection (Start sec) (End sec))) secs.
Proof.
  unfold submitted, section_ops.
  induction secs as [|sec secs IH]; simpl; [done|]. by rewrite IH.
Qed.

Lemma confined_no_calls (s : KThreadPool) : confined (λ _, False) s → calls s = [].
Proof. intros [Hc _]. destruct (calls s); [done|]. by inversion Hc. Qed.

Lemma confined_weaken (P P' : nat → Prop) (s : KThreadPool) :
  (∀ i, P i → P' i) → confined P s → confined P' s.
Proof.
  intros HPQ (Hc & Hq & Ht & Ho).
  assert (Hbody : ∀ body, invokes_only P body → invokes_only P' body).
  { intros body H. unfold invokes_only. eapply Forall_impl; [exact H|].
    intros [i|]; simpl; auto. }
  split; [by eapply Forall_impl|].
  split; [eapply Forall_impl; [exact Hq|]; intros j; apply Hbody|].
  split.
  - eapply Forall_impl; [exact Ht|]. intros []; simpl; auto.
  - assert (Hop : ∀ prog, Forall (op_confined P) prog → Forall (op_confined P') prog).
    { intros prog H. eapply Forall_impl; [exact H|]. intros []; simpl; auto.
      intros H'. eapply Forall_impl; [exact H'|]. intros j. apply Hbody. }
    destruct (owner s); simpl in *; auto.
Qed.

Lemma calls_at_confined (P : nat → Prop) (s : KThreadPool) (i : nat) :
  confined P s → ¬ P i → calls_at i s = 0.
Proof.
  intros [Hc _] Hi. unfold calls_at. apply count_occ_not_In.
  intros Hin. apply Hi. rewrite Forall_forall in Hc. apply Hc.
  by apply list_elem_of_In.
Qed.

(** ** IterateWeighted (C1, C5, C10) *)

(** C1 at the specification's own scenario (ten elements, weight
    [value + 1], three workers): the scan leaves the sections [0, 5),
    [6, 8) and [9, 9), one per worker; the indices 5, 8 and 9 at which a
    section was closed lie in none of them, so the sections do not
    partition [[0, 10)]; and in a run in which every job is executed the
    callback is never called at those indices. *)
Theorem IterateWeighted_skips_section_ends :
  ∃ r p wl,
    IterateWeighted_scan host8 value_plus_one 3 10 = Some r ∧
    IterateWeighted host8 value_plus_one 3 10 = Some (p, wl) ∧
    w_sections r = [ {| Start := 0; End := 5 |}; {| Start := 6; End := 8 |};
                     {| Start := 9; End := 9 |} ] ∧
    length (w_sections r) = Z.to_nat (Z.min 3 10) ∧
    List.filter (λ i, negb (covered i (w_sections r))) (seq 0 10) = [5; 8; 9] ∧
    ¬ partitions 10 (w_sections r) ∧
    ∃ s, run (replicate 4 Owner ++ replicate 18 (Worker 0) ++ replicate 2 (Worker 1) ++
              replicate 2 (Worker 2) ++ replicate 4 Owner) p = Some s ∧
         owner s = Destroyed ∧ PendingJobs s = [] ∧
         calls s = [6; 7; 0; 1; 2; 3; 4].
Proof.
  eexists _, _, _.
  split; [vm_compute; reflexivity|].
  split; [vm_compute; reflexivity|].
  split; [reflexivity|]. split; [reflexivity|]. split; [reflexivity|].
  split.
  - intros H. specialize (H 5 ltac:(lia)). vm_compute in H. discriminate H.
  - eexists. split; [vm_compute; reflexivity|]. done.
Qed.

(** The same holds of every call: whatever the weights and the worker
    count, no run of [IterateWeighted] over a non-empty sequence calls
    the callback at the last index. *)
Lemma IterateWeighted_never_calls_last (h : Host) (weightFunc : nat → float) (W : Z)
    (L : nat) (p : KThreadPool) (wl : list nat) :
  IterateWeighted h weightFunc W L = Some (p, wl) →
  0 < L →
  ∀ sched s, run sched p = Some s → calls_at (L - 1) s = 0.
Proof.
  intros Hp HL sched s Hrun. unfold IterateWeighted in Hp.
  destruct (IterateWeighted_scan h weightFunc W L) as [r|] eqn:Hr; simplify_eq/=.
  destruct (IterateWeighted_scan_facts h weightFunc W L r Hr) as (_ & _ & _ & Hend).
  apply (calls_at_confined (λ i, i < L - 1)); [|lia].
  eapply run_confined; [exact Hrun|].
  apply KThreadPool_new_confined, section_ops_confined.
  eapply Forall_impl; [exact Hend|]. simpl. intros sec Hsec i Hi. lia.
Qed.

(** C5, as amended: every job that [IterateWeighted] creates, one per
    section, owns itself: its auto-delete flag is [true], and the worker
    that reaches the end of its execution runs [delete this]. *)
Theorem IterateWeighted_jobs_self_owned (h : Host) (weightFunc : nat → float) (W : Z)
    (L : nat) (p : KThreadPool) (wl : list nat) :
  IterateWeighted h weightFunc W L = Some (p, wl) →
  ∃ r,
    IterateWeighted_scan h weightFunc W L = Some r ∧
    created_jobs p =
      map (λ sec, ThreadJob (iterSection (Start sec) (End sec))) (w_sections r) ∧
    Forall (λ j, bDeleteOnFinish j = true) (created_jobs p) ∧
    ∀ j, j ∈ created_jobs p →
      ∀ s k, Threads s !! k = Some (Executing j []) →
        step (Worker k) s = Some (set_thread k Finishing (log (Deleted j) s)).
Proof.
  intros Hp. unfold IterateWeighted in Hp.
  destruct (IterateWeighted_scan h weightFunc W L) as [r|]; simplify_eq/=.
  exists r. split; [done|].
  unfold created_jobs. simpl. rewrite submitted_section_ops.
  assert (Hflag : Forall (λ j, bDeleteOnFinish j = true)
            (map (λ sec, ThreadJob (iterSection (Start sec) (End sec))) (w_sections r))).
  { apply Forall_map. by apply Forall_true. }
  split; [done|]. split; [done|].
  intros j Hj s k Hk. simpl. rewrite Hk. simpl.
  rewrite Forall_forall in Hflag. by rewrite (Hflag j Hj).
Qed.

Lemma IterateWeighted_jobs_self_owned_witness :
  ∃ p wl,
    IterateWeighted host8 value_plus_one 3 10 = Some (p, wl) ∧
    ∃ r,
      IterateWeighted_scan host8 value_plus_one 3 10 = Some r ∧
      created_jobs p =
        map (λ sec, ThreadJob (iterSection (Start sec) (End sec))) (w_sections r) ∧
      Forall (λ j, bDeleteOnFinish j = true) (created_jobs p) ∧
      ∀ j, j ∈ created_jobs p →
        ∀ s k, Threads s !! k = Some (Executing j []) →
          step (Worker k) s = Some (set_thread k Finishing (log (Deleted j) s)).
Proof.
  destruct (IterateWeighted host8 value_plus_one 3 10) as [[p wl]|] eqn:Hp;
    [|vm_compute in Hp; discriminate].
  exists p, wl. split; [reflexivity|].
  exact (IterateWeighted_jobs_self_owned host8 value_plus_one 3 10 p wl Hp).
Defined.

(** C5 as stated fails: at four elements of weight 1 and two workers
    the call creates two jobs, and both delete themselves. *)
Lemma externally_owned_IterateWeighted_fails :
  ¬ ∀ p wl, IterateWeighted host8 (λ _, 1%float) 2 4 = Some (p, wl) → externally_owned p.
Proof.
  intros H. specialize (H _ _ eq_refl).
  unfold externally_owned in H. vm_compute in H.
  inversion H as [|? ? Hflag]. discriminate Hflag.
Qed.

(** C10: on an empty sequence [IterateWeighted] calls the weight
    function at no index; in no state of any run has the callback been
    called; and from every state a run reaches, the call can return. *)
Theorem IterateWeighted_empty (h : Host) (weightFunc : nat → float) (W : Z) :
  ∃ p, IterateWeighted h weightFunc W 0 = Some (p, []) ∧
       ∀ sched s, run sched p = Some s →
         calls s = [] ∧
         ∃ sched' s', run sched' s = Some s' ∧ owner s' = Destroyed ∧ calls s' = [].
Proof.
  unfold IterateWeighted. rewrite IterateWeighted_scan_empty. simpl.
  eexists. split; [reflexivity|].
  intros sched s Hrun.
  set (p := KThreadPool_new _ _ _) in Hrun.
  assert (Hp : confined (λ _, False) p).
  { apply KThreadPool_new_confined, section_ops_confined, Forall_replicate.
    simpl. intros i Hi. lia. }
  assert (Hret : returning p).
  { unfold returning. simpl. eexists. split; [reflexivity|]. apply section_ops_push. }
  assert (Hs : confined (λ _, False) s) by (by eapply run_confined).
  split; [by apply confined_no_calls|].
  destruct (iteration_can_return s) as (sched' & s' & Hrun' & Ho').
  - eapply (run_preserves returning); [apply step_returning|exact Hrun|exact Hret].
  - by eapply confined_weaken.
  - exists sched', s'. split; [done|]. split; [done|].
    apply confined_no_calls. by eapply run_confined.
Qed.

(** ** Every call is accounted for *)

Lemma calls_at_log (i : nat) (e : event) (s : KThreadPool) :
  calls_at i (log e s) =
    calls_at i s + match e with Called j => if i =? j then 1 else 0 | _ => 0 end.
Proof.
  unfold calls_at. rewrite calls_log, count_occ_app.
  destruct e as [|j|]; simpl; try lia.
  destruct (Nat.eq_dec j i) as [->|Hne].
  - by rewrite Nat.eqb_refl.
  - destruct (Nat.eqb_spec i j); [congruence|done].
Qed.

Lemma calls_at_set_thread i k w s : calls_at i (set_thread k w s) = calls_at i s.
Proof. done. Qed.

Lemma calls_at_set_active i a s : calls_at i (set_active a s) = calls_at i s.
Proof. done. Qed.

Lemma calls_at_set_pending i q s : calls_at i (set_pending q s) = calls_at i s.
Proof. done. Qed.

Lemma calls_at_set_owner i c s : calls_at i (set_owner c s) = calls_at i s.
Proof. done. Qed.

Lemma calls_at_set_destroying i b s : calls_at i (set_destroying b s) = calls_at i s.
Proof. done. Qed.

Lemma calls_at_push_job i j s : calls_at i (push_job j s) = calls_at i s.
Proof. done. Qed.

Create Rewrite HintDb calls_at.

#[local] Hint Rewrite calls_at_set_thread calls_at_set_active calls_at_set_pending
  calls_at_set_owner calls_at_set_destroying calls_at_push_job calls_at_log : calls_at.

(** In a call that only hands over jobs and then destroys its pool, and
    whose jobs enqueue nothing, no step changes how often an index is
    accounted for. *)
Lemma step_tally (i : nat) t s s' :
  step t s = Some s' → confined (λ _, True) s → returning s →
  tally i s' = tally i s.
Proof.
  intros H Hc Hr. destruct t as [|k].
  - simpl in H. unfold owner_step in H. unfold tally, returning in *.
    destruct (owner s) as [[|o prog]|prog|j|] eqn:Ho; simplify_eq/=; try done.
    + destruct o; simplify_eq/=; autorewrite with calls_at.
      * rewrite sum_list_with_app. simpl. lia.
      * rewrite sum_list_with_app. lia.
      * by destruct Hr as ([|o' pushes] & Heq & Hp); simplify_eq/=; inversion Hp.
      * destruct Hr as ([|o' pushes] & Heq & Hp); simplify_eq/=.
        -- lia.
        -- by inversion Hp.
    + by repeat case_match; simplify_eq/=; rewrite ?Ho.
  - simpl in H. destruct (Threads s !! k) as [w|] eqn:Hk; simplify_eq/=.
    pose proof (confined_worker _ _ _ _ Hc Hk) as Hwc.
    unfold tally.
    destruct w as [|j [|[i'|] rest]| | |]; simpl in *; simplify_eq/=.
    + destruct (TakeNewJob_cases s) as [[Hq Ht]|(q & j & Hq & Ht)];
        rewrite Ht in H; simplify_eq/=; autorewrite with calls_at.
      * pose proof (sum_list_with_insert (worker_tally i) _ k CheckDestroy _ Hk).
        simpl in *. lia.
      * pose proof (sum_list_with_insert (worker_tally i) _ k
                      (Executing j (Function j)) _ Hk).
        rewrite Hq, sum_list_with_app. unfold job_tally in *. simpl in *. lia.
    + pose proof (sum_list_with_insert (worker_tally i) _ k Finishing _ Hk).
      destruct (bDeleteOnFinish j); autorewrite with calls_at; simpl in *; lia.
    + pose proof (sum_list_with_insert (worker_tally i) _ k (Executing j rest) _ Hk).
      autorewrite with calls_at. simpl in *. lia.
    + by inversion Hwc.
    + pose proof (sum_list_with_insert (worker_tally i) _ k Polling _ Hk).
      autorewrite with calls_at. simpl in *. lia.
    + destruct (bDestroyingPool s); simplify_eq/=; autorewrite with calls_at.
      * pose proof (sum_list_with_insert (worker_tally i) _ k Terminated _ Hk).
        simpl in *. lia.
      * pose proof (sum_list_with_insert (worker_tally i) _ k Polling _ Hk).
        simpl in *. lia.
Qed.

Lemma run_tally (i : nat) sched s s' :
  run sched s = Some s' → confined (λ _, True) s → returning s →
  tally i s' = tally i s.
Proof.
  intros Hrun Hc Hr.
  assert (H : (confined (λ _, True) s' ∧ returning s') ∧ tally i s' = tally i s).
  { eapply (run_preserves
              (λ s1, (confined (λ _, True) s1 ∧ returning s1) ∧ tally i s1 = tally i s));
      [|exact Hrun|done].
    intros t s1 s2 Hstep [[Hc1 Hr1] Ht1].
    split; [split; [by eapply step_confined|by eapply step_returning]|].
    rewrite <- Ht1. by eapply step_tally. }
  apply H.
Qed.

Lemma worker_tally_replicate (i n : nat) :
  sum_list_with (worker_tally i) (replicate n Polling) = 0.
Proof. induction n as [|n IH]; [done|]. simpl. by rewrite IH. Qed.

Lemma KThreadPool_new_tally (i : nat) h count prog :
  tally i (KThreadPool_new h count prog) = sum_list_with (op_tally i) prog.
Proof. unfold tally. simpl. rewrite worker_tally_replicate. unfold calls_at. simpl. lia. Qed.

(** In a destroyed pool an index is accounted for by the calls made at
    it and by the jobs left in the queue. *)
Lemma tally_destroyed (i : nat) (s : KThreadPool) :
  owner s = Destroyed → joined_inv s →
  tally i s = calls_at i s + sum_list_with (job_tally i) (PendingJobs s).
Proof.
  intros Ho Hj. unfold joined_inv in Hj. rewrite Ho in Hj. destruct Hj as [_ Hall].
  unfold tally. rewrite Ho. simpl.
  assert (sum_list_with (worker_tally i) (Threads s) = 0) as ->; [|lia].
  induction Hall as [|w l -> _ IH]; [done|]. simpl. by rewrite IH.
Qed.

Lemma occurs_invoke_seq (i a n : nat) :
  occurs i (map Invoke (seq a n)) = if (a <=? i) && (i <? a + n) then 1 else 0.
Proof.
  revert a. induction n as [|n IH]; intros a.
  - simpl. destruct (Nat.leb_spec a i), (Nat.ltb_spec i (a + 0)); simpl; lia.
  - change (occurs i (map Invoke (seq a (S n))))
      with ((if i =? a then 1 else 0) + occurs i (map Invoke (seq (S a) n))).
    rewrite IH.
    destruct (Nat.eqb_spec i a), (Nat.leb_spec (S a) i), (Nat.ltb_spec i (S a + n)),
      (Nat.leb_spec a i), (Nat.ltb_spec i (a + S n)); simpl; lia.
Qed.

Lemma occurs_iterSection (i : nat) (sec : IterSection) :
  occurs i (iterSection (Start sec) (End sec)) = if in_section i sec then 1 else 0.
Proof.
  unfold iterSection, in_section. rewrite occurs_invoke_seq.
  destruct (Nat.leb_spec (Start sec) i), (Nat.ltb_spec i (Start sec + (End sec - Start sec))),
    (Nat.ltb_spec i (End sec)); simpl; lia.
Qed.

Lemma section_ops_tally (i : nat) (secs : list IterSection) :
  sum_list_with (op_tally i) (section_ops secs ++ [Destroy]) = times_covered i secs.
Proof.
  rewrite sum_list_with_app. simpl. unfold times_covered, section_ops.
  induction secs as [|sec secs IH]; [done|].
  cbn [map sum_list_with List.filter op_tally AddFunctionToPool].
  unfold job_tally at 1. cbn [Function ThreadJob]. rewrite occurs_iterSection.
  destruct (in_section i sec); simpl; lia.
Qed.

(** How [IterateWeighted]'s calls relate to its sections, in every run:
    the callback is called at an index at most as often as sections
    reach it, so at most once, and exactly as often once the call has
    returned with nothing left in the queue. *)
Lemma IterateWeighted_calls_by_section (h : Host) (weightFunc : nat → float) (W : Z) (L : nat)
    (r : weighted) (p : KThreadPool) (wl : list nat) (sched : list thread) (s : KThreadPool) :
  IterateWeighted_scan h weightFunc W L = Some r →
  IterateWeighted h weightFunc W L = Some (p, wl) →
  run sched p = Some s →
  ∀ i, calls_at i s ≤ times_covered i (w_sections r) ∧
       calls_at i s ≤ 1 ∧
       (owner s = Destroyed → PendingJobs s = [] →
        calls_at i s = times_covered i (w_sections r)).
Proof.
  intros Hr Hp Hrun i.
  pose proof (IterateWeighted_sections_disjoint _ _ _ _ _ Hr i) as Hone.
  unfold IterateWeighted in Hp. rewrite Hr in Hp. simplify_eq/=.
  set (p := KThreadPool_new _ _ _) in *.
  assert (Hc : confined (λ _, True) p).
  { apply KThreadPool_new_confined, section_ops_confined. by apply Forall_true. }
  assert (Hret : returning p).
  { unfold returning. simpl. eexists. split; [reflexivity|]. apply section_ops_push. }
  pose proof (run_tally i _ _ _ Hrun Hc Hret) as Ht.
  unfold p in Ht. rewrite KThreadPool_new_tally, section_ops_tally in Ht.
  split; [|split].
  - unfold tally in Ht. lia.
  - unfold tally in Ht. lia.
  - intros Ho Hq. rewrite tally_destroyed in Ht; [|done|].
    + rewrite Hq in Ht. simpl in Ht. lia.
    + eapply (run_preserves joined_inv); [apply step_joined|exact Hrun|done].
Qed.

(** ** Iterate (C2) *)

Lemma Iterate_jobs_map (L : nat) :
  Iterate_jobs L = map (λ i, ThreadJob_flag false [Invoke i]) (seq 0 L).
Proof.
  unfold Iterate_jobs. induction L as [|L IH]; [done|].
  by rewrite for_range_S, IH, seq_S, map_app.
Qed.

Lemma Iterate_confined (h : Host) (W : Z) (L : nat) :
  confined (λ i, i < L) (Iterate h W L).
Proof.
  apply KThreadPool_new_confined. repeat constructor. simpl.
  rewrite Iterate_jobs_map. apply Forall_map, Forall_forall.
  intros i Hi%list_elem_of_In%in_seq. simpl. repeat constructor. lia.
Qed.

Lemma Iterate_returning (h : Host) (W : Z) (L : nat) : returning (Iterate h W L).
Proof. exists [PushBulk (Iterate_jobs L)]. split; [done|]. by repeat constructor. Qed.

(** The jobs of [Iterate] are owned by the caller, one per index. *)
Lemma Iterate_jobs_externally_owned (h : Host) (W : Z) (L : nat) :
  externally_owned (Iterate h W L) ∧ length (created_jobs (Iterate h W L)) = L.
Proof.
  unfold externally_owned, created_jobs. simpl. rewrite app_nil_r, Iterate_jobs_map.
  split; [apply Forall_map; by apply Forall_true|].
  by rewrite length_map, length_seq.
Qed.

(** The part of C2 that holds in every run: the callback is called only
    at indices of the sequence, so not at all when the sequence is empty;
    and from every state a run reaches, the call can return. *)
Lemma Iterate_calls_in_range (h : Host) (W : Z) (L : nat) (sched : list thread)
    (s : KThreadPool) :
  run sched (Iterate h W L) = Some s →
  Forall (λ i, i < L) (calls s) ∧
  (L = 0 → calls s = []) ∧
  ∃ sched' s', run sched' s = Some s' ∧ owner s' = Destroyed.
Proof.
  intros Hrun.
  assert (Hs : confined (λ i, i < L) s).
  { eapply run_confined; [exact Hrun|apply Iterate_confined]. }
  split; [apply Hs|]. split.
  - intros ->. apply confined_no_calls.
    eapply confined_weaken; [|exact Hs]. simpl. lia.
  - apply iteration_can_return.
    + eapply (run_preserves returning);
        [apply step_returning|exact Hrun|apply Iterate_returning].
    + by eapply confined_weaken.
Qed.

Lemma Iterate_jobs_tally (i L : nat) :
  sum_list_with (job_tally i) (Iterate_jobs L) = if i <? L then 1 else 0.
Proof.
  rewrite Iterate_jobs_map. induction L as [|L IH]; [done|].
  rewrite seq_S, map_app, sum_list_with_app, IH. simpl.
  unfold job_tally. simpl.
  destruct (Nat.eqb_spec i L), (Nat.ltb_spec i L), (Nat.ltb_spec i (S L)); lia.
Qed.

(** What [Iterate] guarantees in every run: the callback is called at
    most once at any index; once the call has returned, an index of the
    sequence has either been called once or its job is still in the
    queue; so the call has processed every element exactly once whenever
    it returns with an empty queue. *)
Lemma Iterate_at_most_once (h : Host) (W : Z) (L : nat) (sched : list thread)
    (s : KThreadPool) :
  run sched (Iterate h W L) = Some s →
  (∀ i, calls_at i s ≤ 1) ∧
  (owner s = Destroyed →
     ∀ i, i < L → calls_at i s + sum_list_with (job_tally i) (PendingJobs s) = 1) ∧
  (owner s = Destroyed → PendingJobs s = [] → each_index_once L s).
Proof.
  intros Hrun.
  assert (Ht : ∀ i, tally i s = if i <? L then 1 else 0).
  { intros i.
    rewrite (run_tally i _ _ _ Hrun).
    - unfold Iterate. rewrite KThreadPool_new_tally. simpl.
      rewrite Iterate_jobs_tally. lia.
    - eapply confined_weaken; [|apply Iterate_confined]. done.
    - apply Iterate_returning. }
  assert (Hj : joined_inv s).
  { eapply (run_preserves joined_inv); [apply step_joined|exact Hrun|done]. }
  split; [|split].
  - intros i. specialize (Ht i). unfold tally in Ht. destruct (i <? L); lia.
  - intros Ho i Hi. rewrite <- tally_destroyed by done. rewrite Ht.
    by destruct (Nat.ltb_spec i L); [|lia].
  - intros Ho Hq i Hi. specialize (Ht i).
    rewrite tally_destroyed, Hq in Ht by done. simpl in Ht.
    destruct (Nat.ltb_spec i L); lia.
Qed.

(** C2 on one element with one worker: the worker finds the pending
    list empty, the calling thread then pushes the job and its destructor
    sets the flag, the worker reads the flag and returns, and the
    destructor joins it. The call has returned, the job is still queued
    and the callback was never called. *)
Theorem Iterate_can_skip_elements :
  ∃ s, run [Worker 0; Owner; Owner; Worker 0; Owner; Owner] (Iterate host8 1 1) = Some s ∧
       owner s = Destroyed ∧
       PendingJobs s = [ThreadJob_flag false [Invoke 0]] ∧
       calls s = [] ∧
       ¬ each_index_once 1 s.
Proof.
  eexists. split; [vm_compute; reflexivity|].
  split; [done|]. split; [done|]. split; [done|].
  intros H. specialize (H 0 ltac:(lia)). vm_compute in H. discriminate H.
Qed.

(** The same with three elements and two workers: both workers poll
    before the push and read the flag after it. *)
Lemma Iterate_two_workers_skip_all :
  ∃ s, run [Worker 0; Worker 1; Owner; Owner; Worker 0; Worker 1; Owner; Owner; Owner]
         (Iterate host8 2 3) = Some s ∧
       owner s = Destroyed ∧ length (PendingJobs s) = 3 ∧ calls s = [].
Proof. eexists. split; [vm_compute; reflexivity|]. done. Qed.

(** When the worker is scheduled after the push instead, the same call
    does call the callback once. *)
Lemma Iterate_one_element_processed :
  ∃ s, run [Owner; Worker 0; Worker 0; Worker 0; Worker 0; Owner; Worker 0; Worker 0;
            Owner; Owner] (Iterate host8 1 1) = Some s ∧
       owner s = Destroyed ∧ PendingJobs s = [] ∧ calls s = [0].
Proof. eexists. split; [vm_compute; reflexivity|]. done. Qed.

(** * Further properties of the pool *)

(** ** The workers of a pool *)

Lemma run_threads_length sched s s' :
  run sched s = Some s' → length (Threads s') = length (Threads s).
Proof.
  intros H.
  apply (run_preserves (λ s1, length (Threads s1) = length (Threads s)) ) with sched s;
    [|done|done].
  intros t s1 s2 Hstep <-. by eapply step_threads_length.
Qed.

(** X1: the constructor spawns [count] workers when [count] is positive,
    one when it is negative, and for [count == 0] the default thread
    count, or the core count when no default is set, but at least one;
    and whatever the pool goes on to do, it keeps exactly these workers. *)
Theorem pool_keeps_its_workers (h : Host) (count : Z) (prog : list op)
    (sched : list thread) (s : KThreadPool) :
  run sched (KThreadPool_new h count prog) = Some s →
  1 ≤ length (Threads s) ∧
  ((0 < count)%Z → Z.of_nat (length (Threads s)) = count) ∧
  ((count < 0)%Z → length (Threads s) = 1) ∧
  (count = 0%Z → DefaultThreadCount h ≠ 0%Z →
     Z.of_nat (length (Threads s)) = Z.max 1 (DefaultThreadCount h)) ∧
  (count = 0%Z → DefaultThreadCount h = 0%Z →
     Z.of_nat (length (Threads s)) = Z.max 1 (GetCpuCoreCount h)).
Proof.
  intros Hrun. rewrite (run_threads_length _ _ _ Hrun). simpl.
  rewrite length_replicate.
  pose proof (thread_count_pos h count) as Hpos.
  rewrite Z2Nat.id by lia.
  split; [lia|]. unfold thread_count.
  repeat split; intros; subst; simpl;
    repeat match goal with
           | |- context [(?a =? ?b)%Z] => destruct (Z.eqb_spec a b)
           | |- context [(?a <=? ?b)%Z] => destruct (Z.leb_spec a b)
           end; lia.
Qed.

Lemma pool_keeps_its_workers_witness :
  1 ≤ length (Threads (state_after [Owner; Worker 0; Worker 1; Worker 0]
                         (KThreadPool_new host8 0 [AddFunctionToPool [Invoke 7]]))) ∧
  ((0 < 0)%Z →
     Z.of_nat (length (Threads (state_after [Owner; Worker 0; Worker 1; Worker 0]
                         (KThreadPool_new host8 0 [AddFunctionToPool [Invoke 7]])))) = 0%Z) ∧
  ((0 < 0)%Z →
     length (Threads (state_after [Owner; Worker 0; Worker 1; Worker 0]
                         (KThreadPool_new host8 0 [AddFunctionToPool [Invoke 7]]))) = 1) ∧
  (0%Z = 0%Z → DefaultThreadCount host8 ≠ 0%Z →
     Z.of_nat (length (Threads (state_after [Owner; Worker 0; Worker 1; Worker 0]
                         (KThreadPool_new host8 0 [AddFunctionToPool [Invoke 7]])))) =
       Z.max 1 (DefaultThreadCount host8)) ∧
  (0%Z = 0%Z → DefaultThreadCount host8 = 0%Z →
     Z.of_nat (length (Threads (state_after [Owner; Worker 0; Worker 1; Worker 0]
                         (KThreadPool_new host8 0 [AddFunctionToPool [Invoke 7]])))) =
       Z.max 1 (GetCpuCoreCount host8)).
Proof.
  apply (pool_keeps_its_workers host8 0 [AddFunctionToPool [Invoke 7]]
           [Owner; Worker 0; Worker 1; Worker 0]).
  vm_compute. reflexivity.
Defined.

(** X2: in every state a pool reaches, whatever its jobs do, the counter
    of active jobs is the number of workers that have claimed a job and
    not yet passed the decrement after it; so it lies between zero and
    the number of threads and the [size_t] never wraps. *)
Theorem ActiveJobCount_counts_busy_workers (h : Host) (count : Z) (prog : list op)
    (sched : list thread) (s : KThreadPool) :
  (thread_count h count ≤ Int.INT_MAX)%Z →
  run sched (KThreadPool_new h count prog) = Some s →
  ActiveJobCount s = Z.of_nat (busy_count (Threads s)) ∧
  (0 ≤ ActiveJobCount s ≤ Z.of_nat (length (Threads s)))%Z ∧
  (ActiveJobCount s = 0%Z ↔ Forall (λ w, is_busy w = false) (Threads s)).
Proof.
  intros Hc Hrun.
  assert (Ha : active_inv s).
  { eapply (run_preserves active_inv); [apply step_active|exact Hrun|].
    by apply KThreadPool_new_active. }
  destruct Ha as [Ha _]. pose proof (busy_count_le (Threads s)) as Hle.
  split; [done|]. split; [lia|]. split.
  - intros H0. apply busy_count_0. lia.
  - intros Hall. rewrite Ha.
    assert (busy_count (Threads s) = 0) as ->; [|done].
    clear Ha Hle. unfold busy_count. induction Hall as [|w l Hw _ IH]; [done|].
    simpl. by rewrite Hw, IH.
Qed.

Lemma ActiveJobCount_counts_busy_workers_witness :
  ActiveJobCount (state_after [Owner; Owner; Worker 0; Worker 1; Worker 1]
                    (KThreadPool_new host8 2
                       [AddFunctionToPool [Invoke 0]; AddFunctionToPool [Invoke 1]])) =
    Z.of_nat (busy_count (Threads
      (state_after [Owner; Owner; Worker 0; Worker 1; Worker 1]
         (KThreadPool_new host8 2
            [AddFunctionToPool [Invoke 0]; AddFunctionToPool [Invoke 1]])))) ∧
  (0 ≤ ActiveJobCount (state_after [Owner; Owner; Worker 0; Worker 1; Worker 1]
                    (KThreadPool_new host8 2
                       [AddFunctionToPool [Invoke 0]; AddFunctionToPool [Invoke 1]]))
     ≤ Z.of_nat (length (Threads
        (state_after [Owner; Owner; Worker 0; Worker 1; Worker 1]
           (KThreadPool_new host8 2
              [AddFunctionToPool [Invoke 0]; AddFunctionToPool [Invoke 1]])))))%Z ∧
  (ActiveJobCount (state_after [Owner; Owner; Worker 0; Worker 1; Worker 1]
                    (KThreadPool_new host8 2
                       [AddFunctionToPool [Invoke 0]; AddFunctionToPool [Invoke 1]])) = 0%Z
   ↔ Forall (λ w, is_busy w = false)
       (Threads (state_after [Owner; Owner; Worker 0; Worker 1; Worker 1]
          (KThreadPool_new host8 2
             [AddFunctionToPool [Invoke 0]; AddFunctionToPool [Invoke 1]])))).
Proof.
  apply (ActiveJobCount_counts_busy_workers host8 2
           [AddFunctionToPool [Invoke 0]; AddFunctionToPool [Invoke 1]]
           [Owner; Owner; Worker 0; Worker 1; Worker 1]).
  - vm_compute. discriminate.
  - vm_compute. reflexivity.
Defined.

Lemma step_alive t s s' : step t s = Some s' → alive_inv s → alive_inv s'.
Proof.
  intros H [Ha Hf].
  destruct t as [|k].
  - simpl in H. unfold owner_step in H. unfold alive_inv, alive in *.
    destruct (owner s) as [[|[] prog]|prog|j|] eqn:Ho;
      repeat case_match; simplify_eq/=; rewrite ?Ho; auto; try done.
  - destruct (step_worker_owner _ _ _ H) as [Ho Hfl]; [done|].
    unfold alive_inv, alive. rewrite Ho, Hfl. split; [done|].
    intros Hflag. specialize (Hf Hflag).
    simpl in H. destruct (Threads s !! k) as [w|] eqn:Hk; simplify_eq/=.
    destruct w; simpl in H; try done.
    + destruct (TakeNewJob_cases s) as [[Hq Ht]|(q & j & Hq & Ht)];
        rewrite Ht in H; simplify_eq/=; by apply Forall_insert.
    + repeat case_match; simplify_eq/=; by apply Forall_insert.
    + simplify_eq/=. by apply Forall_insert.
    + rewrite Hflag in H. simplify_eq/=. by apply Forall_insert.
Qed.

(** X3: until the destructor begins, [IsPendingDestroy()] is false and
    no worker thread has returned: a pool that is alive keeps all its
    workers in their loop, however often they find the list empty. *)
Theorem workers_stay_while_pool_alive (h : Host) (count : Z) (prog : list op)
    (sched : list thread) (s : KThreadPool) :
  run sched (KThreadPool_new h count prog) = Some s →
  (alive s → IsPendingDestroy s = false) ∧
  (IsPendingDestroy s = false → Forall (λ w, is_terminated w = false) (Threads s)) ∧
  (∀ k, Threads s !! k = Some Terminated → ¬ alive s ∧ IsPendingDestroy s = true).
Proof.
  intros Hrun.
  assert (Hinv : alive_inv s).
  { eapply (run_preserves alive_inv); [apply step_alive|exact Hrun|].
    split; [done|]. intros _. simpl. by apply Forall_replicate. }
  destruct Hinv as [Ha Hf]. unfold IsPendingDestroy.
  split; [done|]. split; [done|].
  intros k Hk.
  assert (Hflag : bDestroyingPool s = true).
  { destruct (bDestroyingPool s) eqn:Hb; [done|].
    by pose proof (Forall_lookup_1 _ _ _ _ (Hf eq_refl) Hk). }
  split; [|done]. intros Hal. rewrite (Ha Hal) in Hflag. done.
Qed.

Lemma workers_stay_while_pool_alive_witness :
  (alive (state_after [Worker 0; Worker 0; Worker 0; Owner; Worker 0]
            (KThreadPool_new host8 1 [AddFunctionToPool []; WaitForFinish])) →
   IsPendingDestroy (state_after [Worker 0; Worker 0; Worker 0; Owner; Worker 0]
            (KThreadPool_new host8 1 [AddFunctionToPool []; WaitForFinish])) = false) ∧
  (IsPendingDestroy (state_after [Worker 0; Worker 0; Worker 0; Owner; Worker 0]
            (KThreadPool_new host8 1 [AddFunctionToPool []; WaitForFinish])) = false →
   Forall (λ w, is_terminated w = false)
     (Threads (state_after [Worker 0; Worker 0; Worker 0; Owner; Worker 0]
            (KThreadPool_new host8 1 [AddFunctionToPool []; WaitForFinish])))) ∧
  (∀ k, Threads (state_after [Worker 0; Worker 0; Worker 0; Owner; Worker 0]
            (KThreadPool_new host8 1 [AddFunctionToPool []; WaitForFinish])) !! k
        = Some Terminated →
        ¬ alive (state_after [Worker 0; Worker 0; Worker 0; Owner; Worker 0]
            (KThreadPool_new host8 1 [AddFunctionToPool []; WaitForFinish])) ∧
        IsPendingDestroy (state_after [Worker 0; Worker 0; Worker 0; Owner; Worker 0]
            (KThreadPool_new host8 1 [AddFunctionToPool []; WaitForFinish])) = true).
Proof.
  apply (workers_stay_while_pool_alive host8 1 [AddFunctionToPool []; WaitForFinish]
           [Worker 0; Worker 0; Worker 0; Owner; Worker 0]).
  vm_compute. reflexivity.
Defined.

(** ** The destructor *)

Lemma step_destructing t s s' :
  step t s = Some s' →
  ¬ alive s → bDestroyingPool s = true → confined (λ _, True) s →
  ¬ alive s' ∧ bDestroyingPool s' = true ∧
  work_left s' + joins_left s' < work_left s + joins_left s.
Proof.
  intros H Hal Hf Hc. destruct t as [|k].
  - simpl in H. unfold owner_step in H. unfold alive, joins_left, work_left in *.
    destruct (owner s) as [prog|prog|j|] eqn:Ho; try done.
    destruct (Nat.ltb_spec j (length (Threads s))) as [Hlt|Hge].
    + destruct (Threads s !! j) as [[]|]; simplify_eq/=.
      split; [by intros []|]. split; [done|]. lia.
    + simplify_eq/=. split; [by intros []|]. split; [done|]. lia.
  - destruct (Threads s !! k) as [w|] eqn:Hk; [|by (simpl in H; rewrite Hk in H)].
    destruct (worker_step_decreases s k w Hf Hc Hk) as (s1 & Hs1 & Hlt & Ho & Hf1).
    { intros ->. simpl in H. by rewrite Hk in H. }
    rewrite H in Hs1. injection Hs1 as <-.
    unfold alive, joins_left in *.
    rewrite Ho, (step_threads_length _ _ _ H). split; [done|]. split; [done|]. lia.
Qed.

(** X4: once the destructor has set the flag, and as long as no job
    enqueues anything, every step of every thread uses up the work that
    is left: no schedule, however unfair, goes on for more steps than the
    jobs still queued or running and the joins still to come allow, and a
    state in which no thread can move is one in which the pool is
    destroyed. So [~KThreadPool] always terminates, and never leaves the
    calling thread blocked in [join]. *)
Theorem destructor_terminates (h : Host) (count : Z) (prog : list op)
    (sched0 : list thread) (s : KThreadPool) (sched : list thread) (s' : KThreadPool) :
  Forall (op_confined (λ _, True)) prog →
  run sched0 (KThreadPool_new h count prog) = Some s →
  ¬ alive s →
  run sched s = Some s' →
  length sched + (work_left s' + joins_left s') ≤ work_left s + joins_left s ∧
  ((∀ t, step t s' = None) → owner s' = Destroyed).
Proof.
  intros Hp Hrun0 Hal Hrun.
  assert (Hc : confined (λ _, True) s).
  { eapply run_confined; [exact Hrun0|]. by apply KThreadPool_new_confined. }
  assert (Hf : bDestroyingPool s = true).
  { assert (Hj : joined_inv s).
    { eapply (run_preserves joined_inv); [apply step_joined|exact Hrun0|done]. }
    unfold joined_inv, alive in *. destruct (owner s); try done; apply Hj. }
  clear Hrun0. revert s Hal Hc Hf Hrun.
  induction sched as [|t sched IH]; intros s Hal Hc Hf Hrun; simplify_eq/=.
  - split; [lia|]. intros Hstuck.
    unfold alive in Hal. destruct (owner s') as [| |k|] eqn:Ho; try done.
    exfalso. pose proof (Hstuck Owner) as HO. simpl in HO. unfold owner_step in HO.
    rewrite Ho in HO.
    destruct (Nat.ltb_spec k (length (Threads s'))) as [Hlt|]; [|done].
    destruct (lookup_lt_is_Some_2 _ _ Hlt) as [w Hk]. rewrite Hk in HO.
    destruct (worker_step_decreases s' k w Hf Hc Hk) as (s1 & Hs1 & _).
    { intros ->. done. }
    by rewrite Hstuck in Hs1.
  - destruct (step t s) as [s1|] eqn:Hstep; simplify_eq/=.
    destruct (step_destructing _ _ _ Hstep Hal Hf Hc) as (Hal1 & Hf1 & Hlt).
    destruct (IH s1 Hal1 (step_confined _ _ _ _ Hstep Hc) Hf1 Hrun) as [Hlen Hstuck].
    split; [lia|done].
Qed.

Lemma destructor_terminates_witness :
  length [Worker 0; Worker 0; Worker 0; Worker 0; Owner; Owner] +
    (work_left (state_after [Owner; Owner; Worker 0; Worker 0; Worker 0; Worker 0;
                             Worker 0; Worker 0; Owner; Owner]
                  (KThreadPool_new host8 1 [AddFunctionToPool [Invoke 0]; Destroy])) +
     joins_left (state_after [Owner; Owner; Worker 0; Worker 0; Worker 0; Worker 0;
                              Worker 0; Worker 0; Owner; Owner]
                   (KThreadPool_new host8 1 [AddFunctionToPool [Invoke 0]; Destroy])))
    ≤ work_left (state_after [Owner; Owner; Worker 0; Worker 0]
                   (KThreadPool_new host8 1 [AddFunctionToPool [Invoke 0]; Destroy])) +
      joins_left (state_after [Owner; Owner; Worker 0; Worker 0]
                    (KThreadPool_new host8 1 [AddFunctionToPool [Invoke 0]; Destroy])) ∧
  ((∀ t, step t (state_after [Owner; Owner; Worker 0; Worker 0; Worker 0; Worker 0;
                              Worker 0; Worker 0; Owner; Owner]
                   (KThreadPool_new host8 1 [AddFunctionToPool [Invoke 0]; Destroy])) = None) →
   owner (state_after [Owner; Owner; Worker 0; Worker 0; Worker 0; Worker 0;
                       Worker 0; Worker 0; Owner; Owner]
            (KThreadPool_new host8 1 [AddFunctionToPool [Invoke 0]; Destroy])) = Destroyed).
Proof.
  apply (destructor_terminates host8 1 [AddFunctionToPool [Invoke 0]; Destroy]
           [Owner; Owner; Worker 0; Worker 0]).
  - repeat constructor.
  - vm_compute. reflexivity.
  - vm_compute. intros H. exact H.
  - vm_compute. reflexivity.
Defined.

(** ** Iterate *)

(** X5: in every state a call of [Iterate] reaches, the callback has
    been called only at indices of the sequence and at most once at each;
    once the call has returned, every index has either been called
    exactly once or its job is still in the queue, never both; so a call
    that returns with an empty queue has processed every element exactly
    once. *)
Theorem Iterate_accounts_for_every_index (h : Host) (W : Z) (L : nat)
    (sched : list thread) (s : KThreadPool) :
  run sched (Iterate h W L) = Some s →
  Forall (λ i, i < L) (calls s) ∧
  (∀ i, calls_at i s ≤ 1) ∧
  (owner s = Destroyed →
     ∀ i, i < L → calls_at i s + sum_list_with (job_tally i) (PendingJobs s) = 1) ∧
  (owner s = Destroyed → PendingJobs s = [] → each_index_once L s).
Proof.
  intros Hrun.
  destruct (Iterate_calls_in_range h W L sched s Hrun) as (Hin & _ & _).
  destruct (Iterate_at_most_once h W L sched s Hrun) as (H1 & H2 & H3).
  done.
Qed.

Lemma Iterate_accounts_for_every_index_witness :
  Forall (λ i, i < 3)
    (calls (state_after [Owner; Worker 0; Worker 1; Worker 0; Worker 1; Owner]
              (Iterate host8 2 3))) ∧
  (∀ i, calls_at i (state_after [Owner; Worker 0; Worker 1; Worker 0; Worker 1; Owner]
                      (Iterate host8 2 3)) ≤ 1) ∧
  (owner (state_after [Owner; Worker 0; Worker 1; Worker 0; Worker 1; Owner]
            (Iterate host8 2 3)) = Destroyed →
     ∀ i, i < 3 →
       calls_at i (state_after [Owner; Worker 0; Worker 1; Worker 0; Worker 1; Owner]
                     (Iterate host8 2 3)) +
       sum_list_with (job_tally i)
         (PendingJobs (state_after [Owner; Worker 0; Worker 1; Worker 0; Worker 1; Owner]
                         (Iterate host8 2 3))) = 1) ∧
  (owner (state_after [Owner; Worker 0; Worker 1; Worker 0; Worker 1; Owner]
            (Iterate host8 2 3)) = Destroyed →
   PendingJobs (state_after [Owner; Worker 0; Worker 1; Worker 0; Worker 1; Owner]
                  (Iterate host8 2 3)) = [] →
   each_index_once 3 (state_after [Owner; Worker 0; Worker 1; Worker 0; Worker 1; Owner]
                        (Iterate host8 2 3))).
Proof.
  apply (Iterate_accounts_for_every_index host8 2 3
           [Owner; Worker 0; Worker 1; Worker 0; Worker 1; Owner]).
  vm_compute. reflexivity.
Defined.

(** X6: [Iterate] builds one job per index, none of which deletes
    itself, for a pool of the effective worker count; and whatever state
    the call has reached, its threads can be scheduled so that the
    destructor joins every worker and the call returns. *)
Theorem Iterate_can_always_return (h : Host) (W : Z) (L : nat)
    (sched : list thread) (s : KThreadPool) :
  run sched (Iterate h W L) = Some s →
  length (created_jobs (Iterate h W L)) = L ∧
  externally_owned (Iterate h W L) ∧
  Z.of_nat (length (Threads s)) = effective_workers h W (Z.of_nat L) ∧
  ∃ sched' s', run sched' s = Some s' ∧ owner s' = Destroyed ∧
               Forall (λ w, w = Terminated) (Threads s').
Proof.
  intros Hrun.
  destruct (Iterate_jobs_externally_owned h W L) as [Hown Hlen].
  destruct (Iterate_calls_in_range h W L sched s Hrun) as (_ & _ & sched' & s' & Hrun' & Ho).
  split; [done|]. split; [done|]. split.
  - rewrite (run_threads_length _ _ _ Hrun). simpl. rewrite length_replicate.
    pose proof (thread_count_pos h (clamp_poolSize h W (Z.of_nat L))).
    unfold effective_workers. lia.
  - exists sched', s'. split; [done|]. split; [done|].
    assert (Hj : joined_inv s').
    { eapply (run_preserves joined_inv); [apply step_joined|exact Hrun'|].
      eapply (run_preserves joined_inv); [apply step_joined|exact Hrun|done]. }
    unfold joined_inv in Hj. rewrite Ho in Hj. apply Hj.
Qed.

Lemma Iterate_can_always_return_witness :
  length (created_jobs (Iterate host8 2 3)) = 3 ∧
  externally_owned (Iterate host8 2 3) ∧
  Z.of_nat (length (Threads (state_after [Owner; Worker 1; Worker 1] (Iterate host8 2 3))))
    = effective_workers host8 2 (Z.of_nat 3) ∧
  ∃ sched' s', run sched' (state_after [Owner; Worker 1; Worker 1] (Iterate host8 2 3))
                 = Some s' ∧
               owner s' = Destroyed ∧ Forall (λ w, w = Terminated) (Threads s').
Proof.
  apply (Iterate_can_always_return host8 2 3 [Owner; Worker 1; Worker 1]).
  vm_compute. reflexivity.
Defined.

(** ** IterateWeighted *)

(** X7: the first part of [IterateWeighted], whatever the weights are
    and however their sums round. The scan stays inside [sections]
    whenever the pool has at least as many threads as the sequence has
    elements. Whenever it has stayed inside, it has left exactly one
    section per thread of the pool, each ending before the last index, so
    that none reaches the last index, no two of them sharing an index;
    and it has called the weight function exactly twice at every index,
    once per loop, in ascending order. *)
Theorem IterateWeighted_scan_in_bounds (h : Host) (weightFunc : nat → float)
    (W : Z) (L : nat) :
  ((Z.of_nat L ≤ effective_workers h W (Z.of_nat L))%Z →
     is_Some (IterateWeighted_scan h weightFunc W L)) ∧
  ∀ r, IterateWeighted_scan h weightFunc W L = Some r →
       Z.of_nat (length (w_sections r)) = effective_workers h W (Z.of_nat L) ∧
       w_weighed r = seq 0 L ++ seq 0 L ∧
       Forall (λ sec, End sec ≤ L - 1) (w_sections r) ∧
       (∀ i, times_covered i (w_sections r) ≤ 1) ∧
       (∀ i, L - 1 ≤ i → covered i (w_sections r) = false).
Proof.
  split.
  { intros Hth. apply IterateWeighted_scan_defined. lia. }
  intros r Hr.
  destruct (IterateWeighted_scan_facts h weightFunc W L r Hr)
    as (Hth & Hlen & Hwl & Hend).
  split.
  { rewrite Hlen, Hth. pose proof (effective_workers_to_nat_pos h W (Z.of_nat L)). lia. }
  split; [done|]. split; [done|].
  split; [by eapply IterateWeighted_sections_disjoint|].
  intros i Hi. unfold covered. apply not_true_is_false. intros Hex.
  apply existsb_exists in Hex as (sec & Hin & Hsec).
  rewrite Forall_forall in Hend. apply list_elem_of_In, Hend in Hin.
  unfold in_section in Hsec. apply andb_true_iff in Hsec as [_ Hlt].
  apply Nat.ltb_lt in Hlt. lia.
Qed.

Lemma IterateWeighted_scan_in_bounds_witness :
  is_Some (IterateWeighted_scan host8 tenths 0 5) ∧
  ∃ r, IterateWeighted_scan host8 value_plus_one 3 10 = Some r ∧
       Z.of_nat (length (w_sections r)) = effective_workers host8 3 (Z.of_nat 10) ∧
       w_weighed r = seq 0 10 ++ seq 0 10 ∧
       Forall (λ sec, End sec ≤ 10 - 1) (w_sections r) ∧
       (∀ i, times_covered i (w_sections r) ≤ 1) ∧
       (∀ i, 10 - 1 ≤ i → covered i (w_sections r) = false).
Proof.
  split.
  - apply (IterateWeighted_scan_in_bounds host8 tenths 0 5). vm_compute. discriminate.
  - destruct (IterateWeighted_scan host8 value_plus_one 3 10) as [r|] eqn:Hr;
      [|vm_compute in Hr; discriminate].
    exists r. split; [reflexivity|].
    by apply (IterateWeighted_scan_in_bounds host8 value_plus_one 3 10).
Defined.

(** X14: non-negative weights do not keep the scan inside [sections].
    For ten weights of 0.1 followed by a weight of 0, and five threads,
    the sum of the weights rounds to less than 1 and the target to less
    than 0.2, while 0.1 + 0.1 rounds to 0.2: every second index closes a
    section, after ten iterations all five sections are closed, and the
    last iteration writes [sections[5]], outside the vector. *)
Theorem IterateWeighted_scan_leaves_sections :
  Forall (λ i, PrimFloat.leb 0 (tenths i) = true) (seq 0 11) ∧
  effective_workers host8 5 11 = 5%Z ∧
  (find_total tenths 11).1 = 0x1.fffffffffffffp-1%float ∧
  PrimFloat.div (find_total tenths 11).1 (size_to_double 5) = 0x1.9999999999999p-3%float ∧
  PrimFloat.leb (PrimFloat.add (tenths 0) (tenths 1)) 0x1.9999999999999p-3 = false ∧
  (∃ st, scan_loop tenths 11 0x1.9999999999999p-3 5 10 = Some st ∧
         sectionIndex st = 5 ∧
         sections st = [ {| Start := 0; End := 1 |}; {| Start := 2; End := 3 |};
                         {| Start := 4; End := 5 |}; {| Start := 6; End := 7 |};
                         {| Start := 8; End := 9 |} ]) ∧
  IterateWeighted_scan host8 tenths 5 11 = None ∧
  IterateWeighted host8 tenths 5 11 = None.
Proof.
  split; [by repeat constructor|].
  split; [reflexivity|]. split; [by vm_compute|]. split; [by vm_compute|].
  split; [by vm_compute|].
  split; [eexists; split; [vm_compute; reflexivity|]; by split|].
  split; by vm_compute.
Qed.

Lemma covered_times_covered (i : nat) (secs : list IterSection) :
  times_covered i secs ≤ 1 →
  times_covered i secs = if covered i secs then 1 else 0.
Proof.
  unfold covered, times_covered.
  induction secs as [|sec secs IH]; simpl; [done|].
  destruct (in_section i sec); simpl; intros Hone; [lia|by apply IH].
Qed.

(** X8: whenever the scan has stayed inside [sections] and the sequence
    is not empty, in every state the call of [IterateWeighted] reaches
    the callback has been called at most once at any index, never at an
    index that no section reaches, and in particular never at the last
    index of the sequence; once the call has returned with an empty queue
    the callback has been called exactly at the indices the sections
    reach; and from every such state the call can return. *)
Theorem IterateWeighted_calls_follow_sections (h : Host) (weightFunc : nat → float)
    (W : Z) (L : nat) (p : KThreadPool) (wl : list nat) :
  IterateWeighted h weightFunc W L = Some (p, wl) →
  0 < L →
  ∃ r,
    IterateWeighted_scan h weightFunc W L = Some r ∧
    ∀ sched s, run sched p = Some s →
      (∀ i, calls_at i s ≤ 1) ∧
      (∀ i, covered i (w_sections r) = false → calls_at i s = 0) ∧
      calls_at (L - 1) s = 0 ∧
      (owner s = Destroyed → PendingJobs s = [] →
         ∀ i, calls_at i s = if covered i (w_sections r) then 1 else 0) ∧
      ∃ sched' s', run sched' s = Some s' ∧ owner s' = Destroyed.
Proof.
  intros Hp HL.
  destruct (IterateWeighted_scan h weightFunc W L) as [r|] eqn:Hr;
    [|by (unfold IterateWeighted in Hp; rewrite Hr in Hp)].
  pose proof (IterateWeighted_never_calls_last h weightFunc W L p wl Hp HL) as Hlast.
  exists r. split; [done|].
  intros sched s Hrun.
  assert (Hcov : ∀ i, times_covered i (w_sections r) =
                      if covered i (w_sections r) then 1 else 0).
  { intros i. apply covered_times_covered.
    by eapply IterateWeighted_sections_disjoint. }
  pose proof (IterateWeighted_calls_by_section h weightFunc W L r p wl sched s Hr Hp Hrun)
    as Hcalls.
  split; [intros i; apply Hcalls|].
  split.
  { intros i Hi. destruct (Hcalls i) as (Hle & _). rewrite Hcov, Hi in Hle. lia. }
  split; [by eapply Hlast|].
  split.
  { intros Ho Hq i. destruct (Hcalls i) as (_ & _ & Heq). by rewrite (Heq Ho Hq). }
  unfold IterateWeighted in Hp. rewrite Hr in Hp. simplify_eq/=.
  apply iteration_can_return.
  - eapply (run_preserves returning); [apply step_returning|exact Hrun|].
    unfold returning. simpl. eexists. split; [reflexivity|]. apply section_ops_push.
  - eapply run_confined; [exact Hrun|].
    apply KThreadPool_new_confined, section_ops_confined. by apply Forall_true.
Qed.

Lemma IterateWeighted_calls_follow_sections_witness :
  ∃ p wl,
    IterateWeighted host8 value_plus_one 3 10 = Some (p, wl) ∧
    ∃ r,
      IterateWeighted_scan host8 value_plus_one 3 10 = Some r ∧
      ∀ sched s, run sched p = Some s →
        (∀ i, calls_at i s ≤ 1) ∧
        (∀ i, covered i (w_sections r) = false → calls_at i s = 0) ∧
        calls_at (10 - 1) s = 0 ∧
        (owner s = Destroyed → PendingJobs s = [] →
           ∀ i, calls_at i s = if covered i (w_sections r) then 1 else 0) ∧
        ∃ sched' s', run sched' s = Some s' ∧ owner s' = Destroyed.
Proof.
  destruct (IterateWeighted host8 value_plus_one 3 10) as [[p wl]|] eqn:Hp;
    [|vm_compute in Hp; discriminate].
  exists p, wl. split; [reflexivity|].
  apply (IterateWeighted_calls_follow_sections host8 value_plus_one 3 10 p wl Hp). lia.
Defined.

(** ** Who frees the jobs *)

Lemma step_never_deletes t s s' :
  step t s = Some s' → confined (λ _, True) s → never_deletes s → never_deletes s'.
Proof.
  intros H Hc (Hq & Ht & Ho & Htr). destruct t as [|k].
  - simpl in H. unfold owner_step in H. unfold never_deletes.
    destruct (owner s) as [[|[] prog]|prog|j|] eqn:Ho'; simplify_eq/=; try done.
    + inversion Ho; subst. repeat split; try done.
      apply Forall_app. split; [done|]. by apply Forall_singleton.
    + apply Forall_app in Ho as [Hjs Hprog]. repeat split; try done.
      by apply Forall_app.
    + destruct (0 <? length (PendingJobs s)); simplify_eq/=; by rewrite ?Ho'.
    + destruct (0 <? ActiveJobCount s)%Z; by simplify_eq/=.
    + destruct (j <? length (Threads s)); [|by simplify_eq/=].
      destruct (Threads s !! j) as [[]|]; by simplify_eq/=.
  - destruct (step_worker_owner _ _ _ H) as [Hown _]; [done|].
    unfold never_deletes. rewrite Hown.
    simpl in H. destruct (Threads s !! k) as [w|] eqn:Hk; simplify_eq/=.
    pose proof (Forall_lookup_1 _ _ _ _ Ht Hk) as Hw. simpl in Hw.
    pose proof (confined_worker _ _ _ _ Hc Hk) as Hwc.
    destruct w as [|j [|[i|] rest]| | |]; simpl in *; simplify_eq/=.
    + destruct (TakeNewJob_cases s) as [[Hq' Htk]|(q & j & Hq' & Htk)];
        rewrite Htk in H; simplify_eq/=.
      * repeat split; try done. by apply Forall_insert.
      * rewrite Hq' in Hq. apply Forall_app in Hq as [Hq1 Hq2].
        rewrite Forall_singleton in Hq2.
        repeat split; try done.
        -- by apply Forall_insert.
        -- apply Forall_app. split; [done|]. by apply Forall_singleton.
    + rewrite Hw. repeat split; try done. by apply Forall_insert.
    + repeat split; try done.
      * by apply Forall_insert.
      * apply Forall_app. split; [done|]. by apply Forall_singleton.
    + by inversion Hwc.
    + repeat split; try done. by apply Forall_insert.
    + destruct (bDestroyingPool s); simplify_eq/=;
        (repeat split; try done); by apply Forall_insert.
Qed.

(** X9: [Iterate] owns its jobs for good: in no state that a call of
    [Iterate] reaches has any job run [delete this], so the vector of
    jobs is freed by the caller alone and no job is freed twice. *)
Theorem Iterate_never_frees_a_job (h : Host) (W : Z) (L : nat)
    (sched : list thread) (s : KThreadPool) :
  run sched (Iterate h W L) = Some s →
  (∀ j, Deleted j ∉ Trace s) ∧
  Forall (λ j, bDeleteOnFinish j = false) (PendingJobs s) ∧
  (∀ k j rest, Threads s !! k = Some (Executing j rest) → bDeleteOnFinish j = false).
Proof.
  intros Hrun.
  assert (Hinv : confined (λ _, True) s ∧ never_deletes s).
  { eapply (run_preserves (λ s1, confined (λ _, True) s1 ∧ never_deletes s1));
      [|exact Hrun|].
    - intros t s1 s2 Hstep [Hc1 Hn1].
      split; [by eapply step_confined|by eapply step_never_deletes].
    - split.
      + eapply confined_weaken; [|apply Iterate_confined]. done.
      + destruct (Iterate_jobs_externally_owned h W L) as [Hown _].
        repeat split; try done. simpl. by apply Forall_replicate. }
  destruct Hinv as (_ & Hq & Ht & _ & Htr).
  split; [|split; [done|]].
  - intros j Hj. rewrite Forall_forall in Htr. by apply Htr in Hj.
  - intros k j rest Hk. by pose proof (Forall_lookup_1 _ _ _ _ Ht Hk).
Qed.

Lemma Iterate_never_frees_a_job_witness :
  (∀ j, Deleted j ∉ Trace (state_after [Owner; Worker 0; Worker 0; Worker 0; Worker 1]
                             (Iterate host8 2 3))) ∧
  Forall (λ j, bDeleteOnFinish j = false)
    (PendingJobs (state_after [Owner; Worker 0; Worker 0; Worker 0; Worker 1]
                    (Iterate host8 2 3))) ∧
  (∀ k j rest,
     Threads (state_after [Owner; Worker 0; Worker 0; Worker 0; Worker 1]
                (Iterate host8 2 3)) !! k = Some (Executing j rest) →
     bDeleteOnFinish j = false).
Proof.
  apply (Iterate_never_frees_a_job host8 2 3
           [Owner; Worker 0; Worker 0; Worker 0; Worker 1]).
  vm_compute. reflexivity.
Defined.

(** ** WaitForFinish as a barrier *)

Lemma step_owner_well_formed t s s' :
  step t s = Some s' → owner_well_formed s → owner_well_formed s'.
Proof.
  intros H Hwf. destruct t as [|k].
  - simpl in H. unfold owner_step in H. unfold owner_well_formed in *.
    destruct (owner s) as [[|[] prog]|prog|j|] eqn:Ho; simplify_eq/=; try done.
    + destruct (0 <? length (PendingJobs s)); simplify_eq/=; by rewrite ?Ho.
    + destruct (0 <? ActiveJobCount s)%Z; by simplify_eq/=.
    + destruct (j <? length (Threads s)); [|by simplify_eq/=].
      destruct (Threads s !! j) as [[]|]; by simplify_eq/=.
  - destruct (step_worker_owner _ _ _ H) as [Ho _]; [done|].
    unfold owner_well_formed. by rewrite Ho.
Qed.

(** A worker's step keeps the accounting, whatever the owning thread is
    doing. *)
Lemma step_tally_worker (i k : nat) s s' :
  step (Worker k) s = Some s' → confined (λ _, True) s → tally i s' = tally i s.
Proof.
  intros H Hc.
  simpl in H. destruct (Threads s !! k) as [w|] eqn:Hk; simplify_eq/=.
  pose proof (confined_worker _ _ _ _ Hc Hk) as Hwc.
  unfold tally.
  destruct w as [|j [|[i'|] rest]| | |]; simpl in *; simplify_eq/=.
  - destruct (TakeNewJob_cases s) as [[Hq Ht]|(q & j & Hq & Ht)];
      rewrite Ht in H; simplify_eq/=; autorewrite with calls_at.
    + pose proof (sum_list_with_insert (worker_tally i) _ k CheckDestroy _ Hk).
      simpl in *. lia.
    + pose proof (sum_list_with_insert (worker_tally i) _ k
                    (Executing j (Function j)) _ Hk).
      rewrite Hq, sum_list_with_app. unfold job_tally in *. simpl in *. lia.
  - pose proof (sum_list_with_insert (worker_tally i) _ k Finishing _ Hk).
    destruct (bDeleteOnFinish j); autorewrite with calls_at; simpl in *; lia.
  - pose proof (sum_list_with_insert (worker_tally i) _ k (Executing j rest) _ Hk).
    autorewrite with calls_at. simpl in *. lia.
  - by inversion Hwc.
  - pose proof (sum_list_with_insert (worker_tally i) _ k Polling _ Hk).
    autorewrite with calls_at. simpl in *. lia.
  - destruct (bDestroyingPool s); simplify_eq/=; autorewrite with calls_at.
    + pose proof (sum_list_with_insert (worker_tally i) _ k Terminated _ Hk).
      simpl in *. lia.
    + pose proof (sum_list_with_insert (worker_tally i) _ k Polling _ Hk).
      simpl in *. lia.
Qed.

(** The accounting of [step_tally], for a program that may also wait. *)
Lemma step_tally_waiting (i : nat) t s s' :
  step t s = Some s' → confined (λ _, True) s → owner_well_formed s →
  tally i s' = tally i s.
Proof.
  intros H Hc Hwf. destruct t as [|k].
  - simpl in H. unfold owner_step in H. unfold tally, owner_well_formed in *.
    destruct (owner s) as [[|[] prog]|prog|j|] eqn:Ho; simplify_eq/=; try done;
      autorewrite with calls_at.
    + rewrite sum_list_with_app. simpl. lia.
    + rewrite sum_list_with_app. lia.
    + destruct (0 <? length (PendingJobs s)); simplify_eq/=;
        autorewrite with calls_at; by rewrite ?Ho.
    + destruct (0 <? ActiveJobCount s)%Z; simplify_eq/=; by autorewrite with calls_at.
    + destruct (j <? length (Threads s)); [|by simplify_eq/=].
      destruct (Threads s !! j) as [[]|]; by simplify_eq/=.
  - by eapply step_tally_worker.
Qed.

Lemma reachable_waiting (h : Host) (count : Z) (prog : list op) sched s :
  (thread_count h count ≤ Int.INT_MAX)%Z →
  Forall (op_confined (λ _, True)) prog →
  nothing_after_destroy prog →
  run sched (KThreadPool_new h count prog) = Some s →
  confined (λ _, True) s ∧ wait_inv s ∧ active_inv s ∧ owner_well_formed s ∧
  ∀ i, tally i s = sum_list_with (op_tally i) prog.
Proof.
  intros Hc Hp Hwf Hrun.
  eapply (run_preserves
            (λ s, confined (λ _, True) s ∧ wait_inv s ∧ active_inv s ∧
                  owner_well_formed s ∧
                  ∀ i, tally i s = sum_list_with (op_tally i) prog));
    [|exact Hrun|].
  - intros t s1 s2 H12 (H1 & H2 & H3 & H4 & H5).
    split; [by eapply step_confined|].
    split; [by eapply step_wait|].
    split; [by eapply step_active|].
    split; [by eapply step_owner_well_formed|].
    intros i. rewrite <- H5. by eapply step_tally_waiting.
  - split; [by apply KThreadPool_new_confined|].
    split; [done|]. split; [by apply KThreadPool_new_active|].
    split; [done|]. intros i. apply KThreadPool_new_tally.
Qed.

(** X10: for a pool whose jobs enqueue nothing, [WaitForFinish] is a
    barrier: when it returns, every call of the callback owed by a job
    that the owning thread has handed over so far has been made, at every
    index; what is still owed is owed by the jobs the owning thread has
    yet to hand over. Nothing is pending and no worker is inside a job. *)
Theorem WaitForFinish_is_a_barrier (h : Host) (count : Z) (prog : list op)
    (sched : list thread) (s s' : KThreadPool) :
  (thread_count h count ≤ Int.INT_MAX)%Z →
  Forall (op_confined (λ _, True)) prog →
  nothing_after_destroy prog →
  run sched (KThreadPool_new h count prog) = Some s →
  WaitForFinish_returns s s' →
  GetPendingJobCount s' = 0 ∧
  Forall (λ w, is_busy w = false) (Threads s') ∧
  ∀ i, calls_at i s' + owner_tally i (owner s') = sum_list_with (op_tally i) prog.
Proof.
  intros Hc Hp Hwf Hrun (prog' & Ho & Hstep & Ho').
  destruct (reachable_waiting h count prog sched s Hc Hp Hwf Hrun)
    as (Hconf & Hw & [Ha _] & Hwfs & Ht).
  simpl in Hstep. unfold owner_step in Hstep. rewrite Ho in Hstep.
  destruct (Z.ltb_spec 0 (ActiveJobCount s)) as [Hlt|Hge]; simplify_eq/=.
  { apply (f_equal length) in Ho'. simpl in Ho'. lia. }
  assert (Hbusy : Forall (λ w, is_busy w = false) (Threads s)).
  { apply busy_count_0. lia. }
  unfold GetPendingJobCount. simpl. rewrite (Hw _ Ho).
  split; [done|]. split; [done|].
  intros i. specialize (Ht i). unfold tally in Ht.
  rewrite (Hw _ Ho), Ho in Ht. simpl in Ht.
  autorewrite with calls_at.
  assert (sum_list_with (worker_tally i) (Threads s) = 0) as Hz; [|lia].
  clear -Hbusy. induction Hbusy as [|w l Hw _ IH]; [done|].
  simpl. rewrite IH. by destruct w.
Qed.

Lemma WaitForFinish_is_a_barrier_witness :
  GetPendingJobCount
    (state_after [Owner; Owner; Worker 0; Worker 0; Worker 0; Worker 0; Worker 0;
                  Worker 0; Worker 0; Worker 0; Owner; Owner]
       (KThreadPool_new host8 1
          [AddFunctionToPool [Invoke 0]; AddFunctionToPool [Invoke 1]; WaitForFinish;
           AddFunctionToPool [Invoke 2]])) = 0 ∧
  Forall (λ w, is_busy w = false)
    (Threads
       (state_after [Owner; Owner; Worker 0; Worker 0; Worker 0; Worker 0; Worker 0;
                     Worker 0; Worker 0; Worker 0; Owner; Owner]
          (KThreadPool_new host8 1
             [AddFunctionToPool [Invoke 0]; AddFunctionToPool [Invoke 1]; WaitForFinish;
              AddFunctionToPool [Invoke 2]]))) ∧
  ∀ i,
    calls_at i
      (state_after [Owner; Owner; Worker 0; Worker 0; Worker 0; Worker 0; Worker 0;
                    Worker 0; Worker 0; Worker 0; Owner; Owner]
         (KThreadPool_new host8 1
            [AddFunctionToPool [Invoke 0]; AddFunctionToPool [Invoke 1]; WaitForFinish;
             AddFunctionToPool [Invoke 2]])) +
    owner_tally i
      (owner
         (state_after [Owner; Owner; Worker 0; Worker 0; Worker 0; Worker 0; Worker 0;
                       Worker 0; Worker 0; Worker 0; Owner; Owner]
            (KThreadPool_new host8 1
               [AddFunctionToPool [Invoke 0]; AddFunctionToPool [Invoke 1]; WaitForFinish;
                AddFunctionToPool [Invoke 2]]))) =
    sum_list_with (op_tally i)
      [AddFunctionToPool [Invoke 0]; AddFunctionToPool [Invoke 1]; WaitForFinish;
       AddFunctionToPool [Invoke 2]].
Proof.
  apply (WaitForFinish_is_a_barrier host8 1
           [AddFunctionToPool [Invoke 0]; AddFunctionToPool [Invoke 1]; WaitForFinish;
            AddFunctionToPool [Invoke 2]]
           [Owner; Owner; Worker 0; Worker 0; Worker 0; Worker 0; Worker 0;
            Worker 0; Worker 0; Worker 0; Owner]
           (state_after [Owner; Owner; Worker 0; Worker 0; Worker 0; Worker 0; Worker 0;
                         Worker 0; Worker 0; Worker 0; Owner]
              (KThreadPool_new host8 1
                 [AddFunctionToPool [Invoke 0]; AddFunctionToPool [Invoke 1]; WaitForFinish;
                  AddFunctionToPool [Invoke 2]]))).
  - vm_compute. discriminate.
  - repeat constructor.
  - simpl. done.
  - vm_compute. reflexivity.
  - eexists. split; [vm_compute; reflexivity|]. split; vm_compute; reflexivity.
Defined.

(** ** The order in which a worker takes a batch *)

(** A worker alone takes the last job of the list and runs it to its
    end. *)
Lemma run_plain_job (s : KThreadPool) (k : nat) (q : list ThreadJobBase)
    (j : ThreadJobBase) :
  Threads s !! k = Some Polling →
  PendingJobs s = q ++ [j] →
  plain_job j →
  ∃ s', run (replicate (length (Function j) + 3) (Worker k)) s = Some s' ∧
        Threads s' = Threads s ∧ PendingJobs s' = q ∧
        Trace s' = Trace s ++ job_events j ∧
        owner s' = owner s ∧ bDestroyingPool s' = bDestroyingPool s.
Proof.
  intros Hk Hq Hj.
  assert (Hlen : k < length (Threads s)) by (by eapply lookup_lt_Some).
  replace (length (Function j) + 3) with (1 + (length (Function j) + 2)) by lia.
  rewrite replicate_add, run_app. simpl. rewrite Hk. simpl.
  rewrite (TakeNewJob_last s q j Hq). simpl.
  rewrite replicate_add, run_app.
  rewrite (run_body _ _ k j); simpl;
    [|by apply list_lookup_insert_eq|done].
  rewrite !list_insert_insert_eq, !list_lookup_insert_eq by done. simpl.
  destruct (bDeleteOnFinish j) eqn:Hd; simpl;
    rewrite !list_insert_insert_eq, !list_lookup_insert_eq by done; simpl;
    (eexists; split; [reflexivity|]); simpl;
    rewrite !list_insert_insert_eq;
    (split; [by apply list_insert_id|]); (split; [done|]);
    (split; [|done]); unfold job_events; rewrite Hd;
    rewrite ?app_nil_r, <- ?app_assoc; done.
Qed.

Lemma run_batch_in_reverse (s : KThreadPool) (k : nat) (js : list ThreadJobBase) :
  Threads s !! k = Some Polling →
  Forall plain_job js →
  ∃ s', run (replicate (sum_list_with (λ j, length (Function j) + 3) js) (Worker k))
          (set_pending (PendingJobs s ++ js) s) = Some s' ∧
        Trace s' = Trace s ++ concat (map job_events (rev js)) ∧
        PendingJobs s' = PendingJobs s ∧
        Threads s' = Threads s ∧
        owner s' = owner s ∧ bDestroyingPool s' = bDestroyingPool s.
Proof.
  intros Hk Hjs. revert s Hk Hjs.
  induction js as [|j js IH] using rev_ind; intros s Hk Hjs.
  - exists s. simpl. rewrite !app_nil_r. by destruct s.
  - apply Forall_app in Hjs as [Hjs Hj]. rewrite Forall_singleton in Hj.
    rewrite sum_list_with_app. simpl.
    rewrite Nat.add_0_r, (Nat.add_comm _ (length (Function j) + 3)).
    rewrite replicate_add, run_app.
    destruct (run_plain_job (set_pending (PendingJobs s ++ js ++ [j]) s) k
                (PendingJobs s ++ js) j) as (s1 & Hrun1 & Ht1 & Hq1 & Htr1 & Ho1 & Hf1);
      [done|by rewrite app_assoc|done|].
    rewrite Hrun1. simpl in *.
    destruct (IH (set_pending (PendingJobs s) s1))
      as (s2 & Hrun2 & Htr2 & Hq2 & Ht2 & Ho2 & Hf2).
    { simpl. by rewrite Ht1. }
    { done. }
    simpl in *.
    assert (Hs1 : set_pending (PendingJobs s ++ js) (set_pending (PendingJobs s) s1) = s1).
    { destruct s1. simpl in *. by subst. }
    rewrite Hs1 in Hrun2.
    exists s2. split; [done|].
    rewrite rev_app_distr. simpl.
    rewrite Htr2, Htr1, Ht2, Ho2, Hf2, <- app_assoc. by repeat split.
Qed.

(** X11: last in, first out, for a whole batch: a worker that is the
    only thread to move, facing a list to which jobs that enqueue nothing
    were appended, executes those jobs from the last appended to the
    first, each to its end before the next begins, and leaves the list as
    it was before they were appended. *)
Theorem single_worker_runs_batch_in_reverse (s : KThreadPool) (k : nat)
    (js : list ThreadJobBase) :
  Threads s !! k = Some Polling →
  Forall plain_job js →
  ∃ s', run (replicate (sum_list_with (λ j, length (Function j) + 3) js) (Worker k))
          (set_pending (PendingJobs s ++ js) s) = Some s' ∧
        Trace s' = Trace s ++ concat (map job_events (rev js)) ∧
        PendingJobs s' = PendingJobs s ∧
        Threads s' = Threads s ∧
        owner s' = owner s ∧ bDestroyingPool s' = bDestroyingPool s.
Proof. apply run_batch_in_reverse. Qed.

Lemma single_worker_runs_batch_in_reverse_witness :
  ∃ s', run (replicate
               (sum_list_with (λ j, length (Function j) + 3)
                  [ThreadJob [Invoke 0]; ThreadJob_flag false [Invoke 1; Invoke 2]])
               (Worker 0))
          (set_pending
             (PendingJobs (KThreadPool_new host8 1 []) ++
              [ThreadJob [Invoke 0]; ThreadJob_flag false [Invoke 1; Invoke 2]])
             (KThreadPool_new host8 1 [])) = Some s' ∧
        Trace s' = Trace (KThreadPool_new host8 1 []) ++
          concat (map job_events
                    (rev [ThreadJob [Invoke 0]; ThreadJob_flag false [Invoke 1; Invoke 2]])) ∧
        PendingJobs s' = PendingJobs (KThreadPool_new host8 1 []) ∧
        Threads s' = Threads (KThreadPool_new host8 1 []) ∧
        owner s' = owner (KThreadPool_new host8 1 []) ∧
        bDestroyingPool s' = bDestroyingPool (KThreadPool_new host8 1 []).
Proof.
  apply (single_worker_runs_batch_in_reverse (KThreadPool_new host8 1 []) 0
           [ThreadJob [Invoke 0]; ThreadJob_flag false [Invoke 1; Invoke 2]]).
  - reflexivity.
  - repeat constructor.
Defined.

Lemma Iterate_jobs_steps (L : nat) :
  sum_list_with (λ j, length (Function j) + 3) (Iterate_jobs L) = 4 * L.
Proof.
  rewrite Iterate_jobs_map. induction L as [|L IH]; [done|].
  rewrite seq_S, map_app, sum_list_with_app, IH. simpl. lia.
Qed.

Lemma Iterate_jobs_calls (l : list nat) :
  omap (λ e, match e with Called i => Some i | _ => None end)
    (concat (map job_events (map (λ i, ThreadJob_flag false [Invoke i]) l))) = l.
Proof. induction l as [|i l IH]; [done|]. simpl. f_equal. exact IH. Qed.

(** X12: with one worker requested, [Iterate] over a non-empty sequence
    has a run in which every element is processed exactly once: the
    calling thread pushes the jobs, the worker takes them one by one from
    the end of the list, and the destructor joins it after it has found
    the list empty. In that run the callback is called at the indices in
    descending order. *)
Theorem Iterate_one_worker_descending (h : Host) (L : nat) :
  0 < L →
  ∃ s, run ([Owner] ++ replicate (4 * L) (Worker 0) ++
            [Owner; Worker 0; Worker 0; Owner; Owner]) (Iterate h 1 L) = Some s ∧
       owner s = Destroyed ∧ PendingJobs s = [] ∧
       calls s = rev (seq 0 L) ∧ each_index_once L s.
Proof.
  intros HL.
  assert (Hex : ∃ s, run ([Owner] ++ replicate (4 * L) (Worker 0) ++
                          [Owner; Worker 0; Worker 0; Owner; Owner]) (Iterate h 1 L) = Some s ∧
                     owner s = Destroyed ∧ PendingJobs s = [] ∧ calls s = rev (seq 0 L)).
  { unfold Iterate.
    assert (Hclamp : clamp_poolSize h 1 (Z.of_nat L) = 1%Z).
    { unfold clamp_poolSize. simpl.
      destruct (Z.gtb_spec (Int.to_size_t 1) (Z.of_nat L)) as [Hgt|]; [|done].
      change (Int.to_size_t 1) with 1%Z in Hgt. lia. }
    rewrite Hclamp.
    set (jobs := Iterate_jobs L).
    set (s0 := {| Threads := [Polling]; ActiveJobCount := 0; bDestroyingPool := false;
                  PendingJobs := []; owner := Running [Destroy]; Trace := [] |}).
    assert (Hplain : Forall plain_job jobs).
    { unfold jobs. rewrite Iterate_jobs_map. apply Forall_map, Forall_forall.
      intros i _. by repeat constructor. }
    destruct (run_batch_in_reverse s0 0 jobs eq_refl Hplain)
      as (s1 & Hrun1 & Htr1 & Hq1 & Ht1 & Ho1 & Hf1).
    unfold jobs in Hrun1 at 1. rewrite Iterate_jobs_steps in Hrun1.
    rewrite run_app. simpl run at 1. unfold owner_step. simpl.
    rewrite run_app.
    change (set_owner (Running [Destroy]) _) with (set_pending (PendingJobs s0 ++ jobs) s0).
    change (L + (L + (L + (L + 0)))) with (4 * L).
    rewrite Hrun1. simpl.
    destruct s1 as [th ac fl pe ow tr]. simpl in *. subst.
    eexists. split; [reflexivity|]. simpl. split; [done|]. split; [done|].
    unfold calls. simpl. unfold jobs. rewrite Iterate_jobs_map, <- map_rev.
    apply Iterate_jobs_calls. }
  destruct Hex as (s & Hrun & Ho & Hq & Hcalls).
  exists s. repeat split; try done.
  by destruct (Iterate_at_most_once h 1 L _ s Hrun) as (_ & _ & H3); apply H3.
Qed.

Lemma Iterate_one_worker_descending_witness :
  ∃ s, run ([Owner] ++ replicate (4 * 3) (Worker 0) ++
            [Owner; Worker 0; Worker 0; Owner; Owner]) (Iterate host8 1 3) = Some s ∧
       owner s = Destroyed ∧ PendingJobs s = [] ∧
       calls s = rev (seq 0 3) ∧ each_index_once 3 s.
Proof. apply (Iterate_one_worker_descending host8 3). lia. Defined.

(** ** How many elements IterateWeighted leaves out *)

Lemma sum_list_with_add {A : Type} (f g : A → nat) (l : list A) :
  sum_list_with (λ x, f x + g x) l = sum_list_with f l + sum_list_with g l.
Proof. induction l as [|x l IH]; simpl; lia. Qed.

Lemma sum_list_with_ext_in {A : Type} (f g : A → nat) (l : list A) :
  (∀ x, x ∈ l → f x = g x) → sum_list_with f l = sum_list_with g l.
Proof.
  induction l as [|x l IH]; intros H; simpl; [done|].
  rewrite (H x), IH; [done| |by left]. intros y Hy. apply H. by right.
Qed.

Lemma sum_in_section_min (a b m : nat) :
  sum_list_with (λ i, if in_section i {| Start := a; End := b |} then 1 else 0) (seq 0 m)
    = (b `min` m) - (a `min` m).
Proof.
  induction m as [|m IH].
  - simpl. lia.
  - rewrite seq_S, sum_list_with_app, IH. cbn [sum_list_with Nat.add].
    unfold in_section. cbn [Start End].
    destruct (Nat.leb_spec a m), (Nat.ltb_spec m b); cbn [andb]; lia.
Qed.

Lemma sum_in_section (a b m : nat) :
  a ≤ b → b ≤ m →
  sum_list_with (λ i, if in_section i {| Start := a; End := b |} then 1 else 0) (seq 0 m)
    = b - a.
Proof. intros Hab Hbm. rewrite sum_in_section_min. lia. Qed.

Lemma reach_beyond (m ns : nat) (secs : list IterSection) :
  (∀ i, ns ≤ i → times_covered i secs = 0) → ns ≤ m →
  reach m secs = reach ns secs.
Proof.
  intros Hz. induction 1 as [|m Hle IH]; [done|].
  unfold reach in *. rewrite seq_S, sum_list_with_app. simpl.
  rewrite (Hz m) by lia. lia.
Qed.

Lemma processed_reach (L : nat) (secs : list IterSection) :
  (∀ i, times_covered i secs ≤ 1) → processed L secs = reach L secs.
Proof.
  intros Hone. unfold processed, reach.
  induction (seq 0 L) as [|i l IH]; simpl; [done|].
  rewrite (covered_times_covered i secs (Hone i)).
  destruct (covered i secs); simpl; lia.
Qed.

(** Closing a section at index [n]: the section takes in the indices
    from [newStart] up to [n], and [n] itself is left out. *)
Lemma scan_count_close (elementCount n : nat) (st0 : scan) :
  scan_count elementCount n st0 →
  scan_disjoint n st0 →
  sectionIndex st0 < length (sections st0) →
  scan_count elementCount (S n)
    {| accumWeight := 0%float; sectionIndex := sectionIndex st0 + 1; newStart := n + 1;
       sections := <[sectionIndex st0 := {| Start := newStart st0; End := n |}]>
                     (sections st0);
       weighed := weighed st0 ++ [n] |}.
Proof.
  intros (Hk & Hlen & Hreach & _) (Hns & Hzero & Hone & Hfree) Hin.
  destruct (lookup_lt_is_Some_2 _ _ Hin) as [old Hold].
  pose proof (Hzero _ _ (le_n _) Hold) as ->.
  unfold scan_count. simpl. rewrite length_insert.
  split; [lia|]. split; [lia|]. split; [|lia].
  unfold reach.
  rewrite sum_list_with_ext_in
    with (g := λ i, times_covered i (sections st0) +
                    (if in_section i {| Start := newStart st0; End := n |} then 1 else 0)).
  - rewrite sum_list_with_add, sum_in_section by lia.
    fold (reach (n + 1) (sections st0)).
    rewrite (reach_beyond (n + 1) (newStart st0)) by (done || lia). lia.
  - intros i _. rewrite !times_covered_sum.
    pose proof (sum_list_with_insert (λ sec, if in_section i sec then 1 else 0)
                  _ _ {| Start := newStart st0; End := n |} _ Hold) as Hsum.
    unfold in_section at 2 in Hsum. simpl in Hsum. lia.
Qed.

Lemma scan_loop_count (weightFunc : nat → float) (elementCount : nat) (targetWeight : float)
    (threads n : nat) (st : scan) :
  scan_loop weightFunc elementCount targetWeight threads n = Some st →
  scan_count elementCount n st.
Proof.
  revert st. induction n as [|n IH]; intros st Hst.
  - injection Hst as <-. unfold scan_count. simpl.
    repeat split; try done; lia.
  - pose proof Hst as Hst'.
    unfold scan_loop in Hst. rewrite for_range_S in Hst.
    fold (scan_loop weightFunc elementCount targetWeight threads n) in Hst.
    destruct (scan_loop weightFunc elementCount targetWeight threads n) as [st0|] eqn:Hst0;
      [|done].
    pose proof (IH st0 eq_refl) as Hcount.
    pose proof (scan_loop_disjoint _ _ _ _ _ _ Hst0) as Hdisj.
    simpl in Hst. unfold scan_body in Hst.
    destruct (Nat.ltb_spec n (elementCount - 1)) as [Hlt|Hge]; simpl in Hst.
    + destruct (PrimFloat.leb _ _); simplify_eq/=.
      { destruct Hcount as (Hk & Hlen & Hreach & _).
        unfold scan_count. simpl. repeat split; try done; lia. }
      destruct (Nat.ltb_spec (sectionIndex st0) (length (sections st0))) as [Hin|];
        simplify_eq/=.
      by apply (scan_count_close elementCount n st0).
    + destruct (Nat.ltb_spec (sectionIndex st0) (length (sections st0))) as [Hin|];
        simplify_eq/=.
      by apply (scan_count_close elementCount n st0).
Qed.

Lemma sum_list_with_le {A : Type} (f g : A → nat) (l : list A) :
  (∀ x, f x ≤ g x) → sum_list_with f l ≤ sum_list_with g l.
Proof.
  intros H. induction l as [|x l IH]; simpl; [done|]. specialize (H x). lia.
Qed.

Lemma sum_count_one (x L : nat) :
  x < L →
  sum_list_with (λ i, if Nat.eq_dec x i then 1 else 0) (seq 0 L) = 1.
Proof.
  induction L as [|L IH]; intros Hx; [lia|].
  rewrite seq_S, sum_list_with_app. cbn [sum_list_with Nat.add].
  destruct (Nat.eq_dec x L) as [->|Hne].
  - rewrite sum_list_with_ext_in with (g := λ _, 0).
    + induction (seq 0 L); simpl; lia.
    + intros i Hi%list_elem_of_In%in_seq. destruct (Nat.eq_dec L i); [lia|done].
  - rewrite IH by lia. lia.
Qed.

(** A list of indices below [L] is as long as the occurrences of the
    indices below [L] in it add up to. *)
Lemma length_sum_count_occ (l : list nat) (L : nat) :
  (∀ i, L ≤ i → count_occ Nat.eq_dec l i = 0) →
  length l = sum_list_with (λ i, count_occ Nat.eq_dec l i) (seq 0 L).
Proof.
  induction l as [|x l IH]; intros Hl.
  - simpl. induction (seq 0 L); simpl; lia.
  - assert (Hx : x < L).
    { destruct (Nat.lt_ge_cases x L) as [|Hge]; [done|].
      specialize (Hl x Hge). simpl in Hl. destruct (Nat.eq_dec x x); [lia|done]. }
    rewrite sum_list_with_ext_in
      with (g := λ i, (if Nat.eq_dec x i then 1 else 0) + count_occ Nat.eq_dec l i).
    + rewrite sum_list_with_add, sum_count_one by done. simpl. f_equal.
      apply IH. intros i Hi. specialize (Hl i Hi). simpl in Hl.
      destruct (Nat.eq_dec x i); lia.
    + intros i _. simpl. destruct (Nat.eq_dec x i); lia.
Qed.

(** X13: how many elements [IterateWeighted] leaves out. Whenever the
    scan stays inside [sections] and the sequence is not empty, the scan
    closes some number [closed] of sections, at least one and at most one
    per thread, and each closed section ends on an index that it leaves
    out: the sections reach exactly [L - closed] of the [L] indices. In
    every run the callback has been called at most [L - closed] times, and
    exactly that often once the call has returned with the queue
    drained. *)
Theorem IterateWeighted_leaves_out_one_per_section (h : Host) (weightFunc : nat → float)
    (W : Z) (L : nat) (r : weighted) (p : KThreadPool) (wl : list nat) :
  IterateWeighted_scan h weightFunc W L = Some r →
  IterateWeighted h weightFunc W L = Some (p, wl) →
  0 < L →
  ∃ closed,
    1 ≤ closed ≤ length (w_sections r) ∧ closed ≤ L ∧
    processed L (w_sections r) + closed = L ∧
    ∀ sched s, run sched p = Some s →
      length (calls s) + closed ≤ L ∧
      (owner s = Destroyed → PendingJobs s = [] → length (calls s) + closed = L).
Proof.
  intros Hr Hp HL.
  pose proof Hr as Hr'. unfold IterateWeighted_scan in Hr'.
  destruct (find_total weightFunc L) as [total cs].
  destruct (scan_sections _ _ _ _) as [st|] eqn:Hst; simplify_eq/=.
  destruct (scan_loop_count _ _ _ _ _ _ Hst) as (Hk & Hlen & Hreach & Hfin).
  destruct (Hfin eq_refl HL) as [Hns Hpos].
  destruct (scan_loop_disjoint _ _ _ _ _ _ Hst) as (_ & _ & Hone & Hfree).
  rewrite Hns in *.
  exists (sectionIndex st). split; [lia|]. split; [lia|].
  split; [rewrite processed_reach by done; lia|].
  intros sched s Hrun.
  pose proof (IterateWeighted_calls_by_section h weightFunc W L _ p wl sched s Hr Hp Hrun)
    as Hcalls. simpl in Hcalls.
  assert (Hlen' : length (calls s) = sum_list_with (λ i, calls_at i s) (seq 0 L)).
  { apply length_sum_count_occ. intros i Hi.
    destruct (Hcalls i) as (Hle & _). rewrite (Hfree i Hi) in Hle.
    unfold calls_at in Hle. lia. }
  split.
  - rewrite Hlen'. unfold reach in Hreach.
    pose proof (sum_list_with_le (λ i, calls_at i s)
                  (λ i, times_covered i (sections st)) (seq 0 L)
                  (λ i, proj1 (Hcalls i))). lia.
  - intros Ho Hq. rewrite Hlen'. unfold reach in Hreach.
    rewrite sum_list_with_ext_in with (g := λ i, times_covered i (sections st)); [lia|].
    intros i _. by apply Hcalls.
Qed.

Lemma IterateWeighted_leaves_out_one_per_section_witness :
  ∃ r p wl,
    IterateWeighted_scan host8 value_plus_one 3 10 = Some r ∧
    IterateWeighted host8 value_plus_one 3 10 = Some (p, wl) ∧
    ∃ closed,
      1 ≤ closed ≤ length (w_sections r) ∧ closed ≤ 10 ∧
      processed 10 (w_sections r) + closed = 10 ∧
      ∀ sched s, run sched p = Some s →
        length (calls s) + closed ≤ 10 ∧
        (owner s = Destroyed → PendingJobs s = [] → length (calls s) + closed = 10).
Proof.
  destruct (IterateWeighted_scan host8 value_plus_one 3 10) as [r|] eqn:Hr;
    [|vm_compute in Hr; discriminate].
  destruct (IterateWeighted host8 value_plus_one 3 10) as [[p wl]|] eqn:Hp;
    [|vm_compute in Hp; discriminate].
  exists r, p, wl. split; [reflexivity|]. split; [reflexivity|].
  apply (IterateWeighted_leaves_out_one_per_section host8 value_plus_one 3 10 r p wl Hr Hp).
  lia.
Defined.
